(** * json2csv: the CSV writer ([csv_writer.go])

    A shallow embedding of the CSV writer of json2csv and the properties
    of its header computation, row projection and emission modes.

    Layout:
    - [jsonpointer]: the pointer package the writer imports (parsing,
      rendering, the token-wise comparator);
    - the data model of the writer ([Value], [KeyValue], [CSVHeader],
      [KeyStyle], the row sink, [CSVWriter]);
    - the functions of [csv_writer.go], in the order of the source;
    - the properties. *)

From Stdlib Require Import NArith Ascii String.
From stdpp Require Import gmap strings list sorting.

(** Errors a write operation returns. *)
Inductive error :=
  | InvalidPointer (key : string)
  | SinkWriteFailure.

(** A Go result pair [(value, err)]. *)
Inductive orError (A : Type) :=
  | Ok (a : A)
  | Err (e : error).
Arguments Ok {A} a.
Arguments Err {A} e.

(** ** The pointer package *)

Module jsonpointer.

(** Modelled from the spec: the package [jsonpointer] is imported by
    [csv_writer.go] and is not part of the source at hand.  A pointer is
    the ordered sequence of its reference tokens, each kept as the
    unescaped text found between two slashes. *)
Definition JSONPointer := list string.

(** Modelled from the spec: the classification of a token as an array
    index (a non-negative integer) or an object key (an opaque string). *)
Inductive Token :=
  | Index (n : N)
  | Name (s : string).

Definition digit (c : ascii) : option N :=
  let n := N_of_ascii c in
  if ((48 <=? n) && (n <=? 57))%N then Some (n - 48)%N else None.

Fixpoint digits (s : string) (acc : N) : option N :=
  match s with
  | EmptyString => Some acc
  | String c r =>
      match digit c with
      | Some d => digits r (10 * acc + d)%N
      | None => None
      end
  end.

(** Modelled from the spec: a token is Index-typed when it is a
    non-empty run of decimal digits, and Name-typed otherwise. *)
Definition classify (t : string) : Token :=
  match t with
  | EmptyString => Name t
  | _ => match digits t 0 with
         | Some n => Index n
         | None => Name t
         end
  end.

Definition tokens (p : JSONPointer) : list Token := classify <$> p.

(** Splitting the text that follows the leading slash at every slash. *)
Fixpoint split (s : string) : list string :=
  match s with
  | EmptyString => [EmptyString]
  | String c r =>
      if Ascii.eqb c "/" then EmptyString :: split r
      else match split r with
           | t :: ts => String c t :: ts
           | [] => [String c EmptyString]
           end
  end.

(** Undoing the escapes of one reference token: [~0] stands for [~] and
    [~1] for [/]; any other use of [~] is malformed. *)
Fixpoint unescape (s : string) : option string :=
  match s with
  | EmptyString => Some EmptyString
  | String c r =>
      if Ascii.eqb c "~" then
        match r with
        | String d r' =>
            if Ascii.eqb d "0" then String "~" <$> unescape r'
            else if Ascii.eqb d "1" then String "/" <$> unescape r'
            else None
        | EmptyString => None
        end
      else String c <$> unescape r
  end.

Fixpoint escape (s : string) : string :=
  match s with
  | EmptyString => EmptyString
  | String c r =>
      if Ascii.eqb c "~" then String "~" (String "0" (escape r))
      else if Ascii.eqb c "/" then String "~" (String "1" (escape r))
      else String c (escape r)
  end.

(** Modelled from the spec: [jsonpointer.New], the parser of a pointer
    string, which fails with [InvalidPointer] when the string cannot be
    tokenized, as with a malformed escape sequence.  The spec names the
    RFC 6901 convention for the syntax, which is followed where the spec
    says no more: the empty string is the pointer with no token, and any
    other pointer string starts with a slash and is cut at every slash. *)
Definition New (s : string) : orError JSONPointer :=
  match s with
  | EmptyString => Ok []
  | String c r =>
      if Ascii.eqb c "/" then
        match mapM unescape (split r) with
        | Some p => Ok p
        | None => Err (InvalidPointer s)
        end
      else Err (InvalidPointer s)
  end.

(** Modelled from the spec: the pointer-syntax rendering
    ([/foo/bar/0/baz]). *)
Fixpoint String_ (p : JSONPointer) : string :=
  match p with
  | [] => EmptyString
  | t :: r => String "/" (escape t +:+ String_ r)
  end.

(** Modelled from the spec: the slash-trimmed rendering
    ([foo/bar/0/baz]), the pointer string without its leading slash. *)
Definition Slash (p : JSONPointer) : string :=
  match String_ p with
  | String _ r => r
  | EmptyString => EmptyString
  end.

(** Modelled from the spec: the dot renderings.  Without brackets the
    tokens are joined with a dot ([foo.bar.0.baz]); with brackets an
    Index-typed token is rendered as [[N]] and appended directly to the
    preceding segment ([foo.bar[0].baz]). *)
Fixpoint dotFrom (bracketIndex first : bool) (p : JSONPointer) : string :=
  match p with
  | [] => EmptyString
  | t :: r =>
      let sep := if first then EmptyString else "." in
      let seg :=
        match classify t with
        | Index _ => if bracketIndex then "[" +:+ t +:+ "]" else sep +:+ t
        | Name _ => sep +:+ t
        end in
      seg +:+ dotFrom bracketIndex false r
  end.

Definition DotNotation (p : JSONPointer) (bracketIndex : bool) : string :=
  dotFrom bracketIndex true p.

(** Modelled from the spec: the comparator of two tokens.  Two indices
    compare numerically, two names byte-wise, and an index sorts before a
    name. *)
Definition compareToken (a b : Token) : comparison :=
  match a, b with
  | Index m, Index n => (m ?= n)%N
  | Name s, Name t => String.compare s t
  | Index _, Name _ => Lt
  | Name _, Index _ => Gt
  end.

(** Modelled from the spec: token sequences compare position by position;
    a strict prefix sorts first. *)
Fixpoint compareTokens (a b : list Token) : comparison :=
  match a, b with
  | [], [] => Eq
  | [], _ :: _ => Lt
  | _ :: _, [] => Gt
  | x :: a', y :: b' =>
      match compareToken x y with
      | Eq => compareTokens a' b'
      | c => c
      end
  end.

Definition compare (p q : JSONPointer) : comparison :=
  compareTokens (tokens p) (tokens q).

End jsonpointer.

(** ** Data model of the writer *)

(** Modelled from the spec: a scalar leaf of the source document (string,
    number, boolean or null).  A number is kept as its canonical decimal
    text.  The type stands for the [interface{}] values of a [KeyValue]. *)
Inductive Value :=
  | VString (s : string)
  | VNumber (text : string)
  | VBool (b : bool)
  | VNull.

(** Modelled from the spec: [toString], the stringification of a scalar
    (booleans to [true]/[false], numbers to their decimal text, null to the
    empty string, a string to itself). *)
Definition toString (v : Value) : string :=
  match v with
  | VString s => s
  | VNumber text => text
  | VBool true => "true"
  | VBool false => "false"
  | VNull => ""
  end.

(** [type KeyValue map[string]interface{}] *)
Abbreviation KeyValue := (gmap string Value).

(** Modelled from the spec: [CSVHeader], the header specification, a set of
    expected pointer strings ([csv_writer.go] ranges over its keys). *)
Abbreviation CSVHeader := (gset string).

(** [type pointers []jsonpointer.JSONPointer] *)
Abbreviation pointers := (list jsonpointer.JSONPointer).

(** [type KeyStyle uint] and its four constants.  A [KeyStyle] is only
    ever compared, so the width of [uint] plays no part. *)
Definition KeyStyle := N.
Definition JSONPointerStyle : KeyStyle := 0%N.
Definition SlashStyle : KeyStyle := 1%N.
Definition DotNotationStyle : KeyStyle := 2%N.
Definition DotBracketStyle : KeyStyle := 3%N.

(** The row sink, [*csv.Writer]: the rows it has accepted so far, and how
    it answers a [Write] of one more row and the [Error] query that follows
    [Flush], both given the rows accepted so far. *)
Record Sink := mkSink {
  written : list (list string);
  onWrite : list (list string) → list string → option error;
  onFlush : list (list string) → option error
}.

(** [type CSVWriter struct { *csv.Writer; HeaderStyle KeyStyle; Transpose bool }] *)
Record CSVWriter := mkCSVWriter {
  Writer : Sink;
  HeaderStyle : KeyStyle;
  Transpose : bool
}.

(** [NewCSVWriter] *)
Definition NewCSVWriter (w : Sink) (style : KeyStyle) (transpose : bool)
  : CSVWriter :=
  mkCSVWriter w style transpose.

(** [csv.Writer.Write]: the row is appended unless the sink reports an
    error. *)
Definition Write (w : CSVWriter) (record : list string) : CSVWriter * option error :=
  let s := Writer w in
  match onWrite s (written s) record with
  | Some e => (w, Some e)
  | None =>
      (mkCSVWriter (mkSink (written s ++ [record]) (onWrite s) (onFlush s))
                   (HeaderStyle w) (Transpose w), None)
  end.

(** [w.Flush()] followed by [w.Error()]. *)
Definition FlushError (w : CSVWriter) : option error :=
  onFlush (Writer w) (written (Writer w)).

(** Modelled from the spec: the renderings of a pointer sequence
    ([Strings], [Slashes], [DotNotations] of the type [pointers]), each
    mapping every pointer through one rendering and keeping the order. *)
Definition Strings (pts : pointers) : list string :=
  jsonpointer.String_ <$> pts.
Definition Slashes (pts : pointers) : list string :=
  jsonpointer.Slash <$> pts.
Definition DotNotations (pts : pointers) (bracketIndex : bool) : list string :=
  (λ p, jsonpointer.DotNotation p bracketIndex) <$> pts.

(** Modelled from the spec: [Less] of the type [pointers], the order
    [sort.Sort] sorts by. *)
Definition Less (p q : jsonpointer.JSONPointer) : bool :=
  match jsonpointer.compare p q with
  | Lt => true
  | _ => false
  end.

(** ** The functions of [csv_writer.go] *)

(** [getHeader]: the [switch] on [w.HeaderStyle]. *)
Definition getHeader (w : CSVWriter) (pts : pointers) : list string :=
  if (HeaderStyle w =? JSONPointerStyle)%N then Strings pts
  else if (HeaderStyle w =? SlashStyle)%N then Slashes pts
  else if (HeaderStyle w =? DotNotationStyle)%N then DotNotations pts false
  else if (HeaderStyle w =? DotBracketStyle)%N then DotNotations pts true
  else Strings pts.

(** [toRecord] *)
Fixpoint toRecord (kv : KeyValue) (keys : list string) : list string :=
  match keys with
  | [] => []
  | key :: keys' =>
      match kv !! key with
      | Some value => toString value :: toRecord kv keys'
      | None => "" :: toRecord kv keys'
      end
  end.

(** [toTransposedRecord]: the loop after the header cell. *)
Fixpoint transposedCells (results : list KeyValue) (key : string) : list string :=
  match results with
  | [] => []
  | result :: results' =>
      match result !! key with
      | Some value => toString value :: transposedCells results' key
      | None => "" :: transposedCells results' key
      end
  end.

Definition toTransposedRecord (results : list KeyValue) (key header : string)
  : list string :=
  header :: transposedCells results key.

(** A call either returns its [error] value ([None] for [nil]) or panics. *)
Inductive outcome :=
  | Return (err : option error)
  | Panic.

(** Records are Go maps, shared by reference between the caller and the
    writer.  Where the writer only reads the records it is given their
    contents; [WriteCSVByHeader] assigns into them, and is given
    references into a store.  A reference the store has no map for is the
    nil map: it reads as the empty map and an assignment into it panics. *)
Abbreviation loc := nat (only parsing).
Abbreviation store := (gmap loc KeyValue).

Definition deref (σ : store) (l : loc) : KeyValue := default ∅ (σ !! l).

Section Writer.

(** Go leaves the order in which [range] visits a map unspecified:
    [rangeOrder X] is the order in which the keys [X] of a map are visited,
    any enumeration of [X] without repetition. *)
Variable rangeOrder : gset string → list string.
Hypothesis rangeOrder_perm : ∀ X, rangeOrder X ≡ₚ elements X.

(** [sort.Sort] with the order [Less] of the type [pointers]: the library
    promises a rearrangement in ascending order and no stability. *)
Variable sort : pointers → pointers.
Hypothesis sort_perm : ∀ pts, sort pts ≡ₚ pts.
Hypothesis sort_sorted : ∀ pts i j p q,
  i < j → sort pts !! i = Some p → sort pts !! j = Some q → Less q p = false.

(** Modelled from the spec: [KeyValue.Keys], the keys of a record in the
    order a [range] visits them. *)
Definition Keys (kv : KeyValue) : list string := rangeOrder (dom kv).

(** [allPointers]: the inner loop over the keys of one record.  [set] is
    the [map[string]bool] of the keys seen so far. *)
Fixpoint allPointersKeys (keys : list string) (set : gmap string bool)
    (pts : pointers) : orError (gmap string bool * pointers) :=
  match keys with
  | [] => Ok (set, pts)
  | key :: keys' =>
      if default false (set !! key) then allPointersKeys keys' set pts
      else
        let set := <[key := true]> set in
        match jsonpointer.New key with
        | Err err => Err err
        | Ok pointer => allPointersKeys keys' set (pts ++ [pointer])
        end
  end.

(** [allPointers]: the outer loop over the records. *)
Fixpoint allPointersLoop (results : list KeyValue) (set : gmap string bool)
    (pts : pointers) : orError pointers :=
  match results with
  | [] => Ok pts
  | result :: results' =>
      match allPointersKeys (Keys result) set pts with
      | Err err => Err err
      | Ok (set, pts) => allPointersLoop results' set pts
      end
  end.

Definition allPointers (results : list KeyValue) : orError pointers :=
  allPointersLoop results ∅ [].

(** The record [FormatHeader] and [WriteCSVByHeader] build from the header
    specification: [result[h] = ""] for every [h] of [csvHeader]. *)
Definition headerRecord (csvHeader : CSVHeader) : KeyValue :=
  foldl (λ result h, <[h := VString ""]> result) ∅ (rangeOrder csvHeader).

(** [FormatHeader] *)
Definition FormatHeader (w : CSVWriter) (csvHeader : CSVHeader)
  : orError (list string) :=
  let result := headerRecord csvHeader in
  let results := [result] in
  match allPointers results with
  | Err err => Err err
  | Ok pts =>
      let pts := sort pts in
      let header := getHeader w pts in
      Ok header
  end.

(** [WriterHeader] *)
Definition WriterHeader (w : CSVWriter) (csvHeader : CSVHeader)
  : CSVWriter * option error :=
  match FormatHeader w csvHeader with
  | Err err => (w, Some err)
  | Ok header =>
      match Write w header with
      | (w, Some err) => (w, Some err)
      | (w, None) => (w, FlushError w)
      end
  end.

(** [writeCSV]: the loop writing one row per record. *)
Fixpoint writeRecords (w : CSVWriter) (results : list KeyValue)
    (keys : list string) : CSVWriter * option error :=
  match results with
  | [] => (w, None)
  | result :: results' =>
      let record := toRecord result keys in
      match Write w record with
      | (w, Some err) => (w, Some err)
      | (w, None) => writeRecords w results' keys
      end
  end.

(** [writeCSV] *)
Definition writeCSV (w : CSVWriter) (results : list KeyValue)
  : CSVWriter * option error :=
  match allPointers results with
  | Err err => (w, Some err)
  | Ok pts =>
      let pts := sort pts in
      let keys := Strings pts in
      let header := getHeader w pts in
      match Write w header with
      | (w, Some err) => (w, Some err)
      | (w, None) =>
          match writeRecords w results keys with
          | (w, Some err) => (w, Some err)
          | (w, None) => (w, FlushError w)
          end
      end
  end.

(** [writeTransposedCSV]: the loop [for i, key := range keys], from index
    [i] on.  [header[i]] panics when [i] is out of range. *)
Fixpoint writeLines (w : CSVWriter) (results : list KeyValue)
    (header : list string) (i : nat) (keys : list string)
  : CSVWriter * outcome :=
  match keys with
  | [] => (w, Return None)
  | key :: keys' =>
      match header !! i with
      | None => (w, Panic)
      | Some h =>
          let record := toTransposedRecord results key h in
          match Write w record with
          | (w, Some err) => (w, Return (Some err))
          | (w, None) => writeLines w results header (S i) keys'
          end
      end
  end.

(** [writeTransposedCSV] *)
Definition writeTransposedCSV (w : CSVWriter) (results : list KeyValue)
  : CSVWriter * outcome :=
  match allPointers results with
  | Err err => (w, Return (Some err))
  | Ok pts =>
      let pts := sort pts in
      let keys := Strings pts in
      let header := getHeader w pts in
      match writeLines w results header 0 keys with
      | (w, Return None) => (w, Return (FlushError w))
      | (w, out) => (w, out)
      end
  end.

(** [WriteCSV] *)
Definition WriteCSV (w : CSVWriter) (results : list KeyValue)
  : CSVWriter * outcome :=
  if Transpose w then writeTransposedCSV w results
  else let '(w, err) := writeCSV w results in (w, Return err).

(** [WriteCSVByHeader]: the inner loop filling one record,
    [if _, exist := result[h]; !exist { result[h] = "" }] for the keys
    [hs] still to visit.  [None] is the panic of an assignment into the
    nil map. *)
Fixpoint fillMissing (σ : store) (l : loc) (hs : list string) : option store :=
  match hs with
  | [] => Some σ
  | h :: hs' =>
      match deref σ l !! h with
      | Some _ => fillMissing σ l hs'
      | None =>
          match σ !! l with
          | None => None
          | Some result => fillMissing (<[l := <[h := VString ""]> result]> σ) l hs'
          end
      end
  end.

(** [WriteCSVByHeader]: the loop over the records. *)
Fixpoint writeByHeaderLoop (w : CSVWriter) (σ : store) (results : list loc)
    (csvHeader : CSVHeader) (keys : list string)
  : CSVWriter * store * outcome :=
  match results with
  | [] => (w, σ, Return None)
  | l :: results' =>
      match fillMissing σ l (rangeOrder csvHeader) with
      | None => (w, σ, Panic)
      | Some σ =>
          let record := toRecord (deref σ l) keys in
          match Write w record with
          | (w, Some err) => (w, σ, Return (Some err))
          | (w, None) => writeByHeaderLoop w σ results' csvHeader keys
          end
      end
  end.

(** [WriteCSVByHeader] *)
Definition WriteCSVByHeader (w : CSVWriter) (σ : store) (results : list loc)
    (csvHeader : CSVHeader) : CSVWriter * store * outcome :=
  let result := headerRecord csvHeader in
  match allPointers [result] with
  | Err err => (w, σ, Return (Some err))
  | Ok pts =>
      let pts := sort pts in
      let keys := Strings pts in
      match writeByHeaderLoop w σ results csvHeader keys with
      | (w, σ, Return None) => (w, σ, Return (FlushError w))
      | (w, σ, out) => (w, σ, out)
      end
  end.

End Writer.

(** ** Reading an output back *)

(** The text of the cell of record [kv] under [key]. *)
Definition cell (kv : KeyValue) (key : string) : string :=
  match kv !! key with
  | Some value => toString value
  | None => ""
  end.

(** The cells of a row-major output, as (column label, record index, cell
    text): the first row is the header, row [i] after it belongs to record
    [i], and a cell belongs to the label above it. *)
Definition rowCells (header : list string) (i : nat) (row : list string)
  : list (string * nat * string) :=
  zip_with (λ h v, (h, i, v)) header row.

Definition readRows (rows : list (list string)) : list (string * nat * string) :=
  match rows with
  | [] => []
  | header :: data => mjoin (imap (rowCells header) data)
  end.

(** The cells of a transposed output: the first cell of a line is the
    label, the cell [i] after it belongs to record [i]. *)
Definition lineCells (line : list string) : list (string * nat * string) :=
  match line with
  | [] => []
  | h :: values => imap (λ i v, (h, i, v)) values
  end.

Definition readLines (lines : list (list string)) : list (string * nat * string) :=
  mjoin (lineCells <$> lines).

(** The rows a call appended to the sink, given the writer before and
    after. *)
Definition emitted (w w' : CSVWriter) : list (list string) :=
  drop (length (written (Writer w))) (written (Writer w')).

(** A sequence of pointer strings is in sorted pointer order when no later
    one is [Less] than an earlier one. *)
Definition keysSorted (keys : list string) : Prop :=
  ∀ i j ki kj p q,
    i < j → keys !! i = Some ki → keys !! j = Some kj →
    jsonpointer.New ki = Ok p → jsonpointer.New kj = Ok q →
    Less q p = false.

(** ** Auxiliary notions for the pointer syntax *)

Fixpoint slashFree (s : string) : Prop :=
  match s with
  | EmptyString => True
  | String c r => c ≠ "/"%char ∧ slashFree r
  end.

Fixpoint joinTokens (ts : list string) : string :=
  match ts with
  | [] => EmptyString
  | t :: r => String "/" (t +:+ joinTokens r)
  end.

(** ** The state of the loops of [allPointers] *)

(** [set] marks exactly the keys whose pointers are in [pts]; each key has
    one pointer there, the one it parses to. *)
Definition scanned (set : gmap string bool) (pts : pointers) : Prop :=
  (∀ k, default false (set !! k) = true ↔ k ∈ Strings pts) ∧
  NoDup (Strings pts) ∧
  Forall (λ p, jsonpointer.New (jsonpointer.String_ p) = Ok p) pts.

(** [key] is a key of some record of the batch. *)
Definition keyOf (results : list KeyValue) (key : string) : Prop :=
  ∃ result, result ∈ results ∧ is_Some (result !! key).

(** The label [getHeader] gives one pointer under a header style. *)
Definition label (style : KeyStyle) (p : jsonpointer.JSONPointer) : string :=
  if (style =? JSONPointerStyle)%N then jsonpointer.String_ p
  else if (style =? SlashStyle)%N then jsonpointer.Slash p
  else if (style =? DotNotationStyle)%N then jsonpointer.DotNotation p false
  else if (style =? DotBracketStyle)%N then jsonpointer.DotNotation p true
  else jsonpointer.String_ p.

(** ** Stores that differ by filled-in header keys *)

(** [σ'] is [σ] with empty strings inserted under keys of [csvHeader] that
    records lacked: every record is still there, every entry it had is
    unchanged, and an entry it did not have is an empty string under a key
    of [csvHeader]. *)
Definition filled (csvHeader : CSVHeader) (σ σ' : store) : Prop :=
  ∀ l,
    match σ !! l with
    | None => σ' !! l = None
    | Some result =>
        ∃ result', σ' !! l = Some result' ∧
          (∀ k v, result !! k = Some v → result' !! k = Some v) ∧
          (∀ k v, result' !! k = Some v → result !! k = None →
                  k ∈ csvHeader ∧ v = VString "")
    end.

(** ** One iteration order and one sorting algorithm *)

(** The order of stdpp's [elements] is one possible iteration order. *)
Definition elementsOrder (X : gset string) : list string := elements X.

(** [p] may stand before [q] in a sorted sequence. *)
Definition pointerLe (p q : jsonpointer.JSONPointer) : Prop := Less q p = false.

#[global] Instance pointerLe_dec p q : Decision (pointerLe p q).
Proof. unfold pointerLe. apply _. Defined.

(** Merge sort is one algorithm [sort.Sort] may be. *)
Definition mergeSort (pts : pointers) : pointers := merge_sort pointerLe pts.

(** ** Sample inputs *)

(** A sink that accepts every row and reports no error. *)
Definition reliableSink : Sink := mkSink [] (λ _ _, None) (λ _, None).

Definition pointerWriter : CSVWriter :=
  mkCSVWriter reliableSink JSONPointerStyle false.

Definition transposingWriter : CSVWriter :=
  mkCSVWriter reliableSink JSONPointerStyle true.

(** Two records with different keys. *)
Definition sampleBatch : list KeyValue :=
  [ {[ "/a/10" := VNumber "7"; "/a/2" := VString "x" ]};
    {[ "/a" := VBool true; "/a/b" := VNull ]} ].

(** A batch with a key whose escape sequence is malformed. *)
Definition brokenBatch : list KeyValue :=
  [ {[ "/a" := VNumber "1" ]}; {[ "/b~2" := VNumber "2" ]} ].

(** A store with two records, and a header specification that declares a
    key no record has and leaves out a key one record has. *)
Definition sampleStore : store :=
  {[ 0 := {[ "/a" := VNumber "1"; "/zz" := VString "extra" ]};
     1 := {[ "/b" := VString "2" ]} ]}.

Definition sampleHeader : CSVHeader := {[ "/b"; "/a"; "/c" ]}.

(** ** The full outputs of a batch *)

(** The table [writeCSV] sets out to write for a sorted pointer set: the
    header row, then the row of every record. *)
Definition rowMajor (w : CSVWriter) (pts : pointers)
    (results : list KeyValue) : list (list string) :=
  getHeader w pts :: ((λ result, toRecord result (Strings pts)) <$> results).

(** The lines [writeTransposedCSV] sets out to write: one per key, with
    the label of the key in front. *)
Definition transposedLines (w : CSVWriter) (pts : pointers)
    (results : list KeyValue) : list (list string) :=
  zip_with (toTransposedRecord results) (Strings pts) (getHeader w pts).

(** The keys of a batch, over all its records. *)
Definition batchKeys (results : list KeyValue) : gset string :=
  ⋃ (dom <$> results).

(** No two different pointers of the sequence tie in the order [Less]. *)
Definition tieFree (pts : pointers) : Prop :=
  ∀ p q, p ∈ pts → q ∈ pts → Less p q = false → Less q p = false → p = q.

(** No two different keys of the set have pointers that tie in the order
    [Less], so that the order decides the place of every key. *)
Definition tieFreeKeys (X : gset string) : Prop :=
  ∀ k1 k2 p1 p2,
    k1 ∈ X → k2 ∈ X →
    jsonpointer.New k1 = Ok p1 → jsonpointer.New k2 = Ok p2 →
    Less p1 p2 = false → Less p2 p1 = false → k1 = k2.

(** Another iteration order: the order of [elements], backwards. *)
Definition reverseOrder (X : gset string) : list string :=
  reverse (elements X).

(** A sink that accepts two rows and refuses every row after them. *)
Definition twoRowSink : Sink :=
  mkSink []
    (λ rows _, if decide (length rows < 2) then None
               else Some SinkWriteFailure)
    (λ _, None).

Definition twoRowWriter : CSVWriter :=
  mkCSVWriter twoRowSink JSONPointerStyle false.

Definition twoRowTransposingWriter : CSVWriter :=
  mkCSVWriter twoRowSink JSONPointerStyle true.

(** A header specification with a key that does not parse. *)
Definition brokenHeader : CSVHeader := {[ "/a"; "b" ]}.

(** A store whose records have every key of [sampleHeader]. *)
Definition completeStore : store :=
  {[ 0 := {[ "/a" := VNumber "1"; "/b" := VNull; "/c" := VBool false ]};
     1 := {[ "/a" := VString ""; "/b" := VString "2"; "/c" := VString "" ]} ]}.

(** * Properties *)

(** ** Header labels *)

(** C8: the pointer string [/foo/bar/0/baz] parses to the tokens
    [foo], [bar], [0], [baz], and [getHeader] labels that pointer
    [foo.bar[0].baz] under [DotBracketStyle], [foo.bar.0.baz] under
    [DotNotationStyle], [foo/bar/0/baz] under [SlashStyle] and
    [/foo/bar/0/baz] under [JSONPointerStyle]. *)
Theorem getHeader_foo_bar_0_baz (s : Sink) (t : bool) :
  let p := ["foo"; "bar"; "0"; "baz"] in
  jsonpointer.New "/foo/bar/0/baz" = Ok p ∧
  getHeader (mkCSVWriter s DotBracketStyle t) [p] = ["foo.bar[0].baz"] ∧
  getHeader (mkCSVWriter s DotNotationStyle t) [p] = ["foo.bar.0.baz"] ∧
  getHeader (mkCSVWriter s SlashStyle t) [p] = ["foo/bar/0/baz"] ∧
  getHeader (mkCSVWriter s JSONPointerStyle t) [p] = ["/foo/bar/0/baz"].
Proof. repeat split; vm_compute; reflexivity. Qed.

(** C10: for a [HeaderStyle] that is none of the four constants,
    [getHeader] takes the [default] branch and returns the pointer strings,
    the result it returns under [JSONPointerStyle]. *)
Theorem getHeader_default (w : CSVWriter) (pts : pointers) :
  HeaderStyle w ≠ JSONPointerStyle →
  HeaderStyle w ≠ SlashStyle →
  HeaderStyle w ≠ DotNotationStyle →
  HeaderStyle w ≠ DotBracketStyle →
  getHeader w pts = Strings pts ∧
  getHeader w pts
  = getHeader (mkCSVWriter (Writer w) JSONPointerStyle (Transpose w)) pts.
Proof.
  intros H0 H1 H2 H3. unfold getHeader at 1 2.
  destruct (N.eqb_spec (HeaderStyle w) JSONPointerStyle) as [|_]; [done|].
  destruct (N.eqb_spec (HeaderStyle w) SlashStyle) as [|_]; [done|].
  destruct (N.eqb_spec (HeaderStyle w) DotNotationStyle) as [|_]; [done|].
  destruct (N.eqb_spec (HeaderStyle w) DotBracketStyle) as [|_]; [done|].
  split; reflexivity.
Qed.

Lemma getHeader_default_witness :
  let w := mkCSVWriter (mkSink [] (λ _ _, None) (λ _, None)) 7%N false in
  let pts := [["a"; "0"]; ["b"]] in
  getHeader w pts = ["/a/0"; "/b"] ∧
  getHeader w pts = getHeader (mkCSVWriter (Writer w) JSONPointerStyle false) pts.
Proof.
  exact (getHeader_default
           (mkCSVWriter (mkSink [] (λ _ _, None) (λ _, None)) 7%N false)
           [["a"; "0"]; ["b"]]
           ltac:(discriminate) ltac:(discriminate)
           ltac:(discriminate) ltac:(discriminate)).
Defined.

(** ** Row projection *)

Lemma toRecord_cells kv keys : toRecord kv keys = cell kv <$> keys.
Proof.
  induction keys as [|key keys IH]; [done|].
  simpl. unfold cell at 1. destruct (kv !! key); by rewrite IH.
Qed.

Lemma transposedCells_cells results key :
  transposedCells results key = (λ kv, cell kv key) <$> results.
Proof.
  induction results as [|kv results IH]; [done|].
  simpl. unfold cell at 1. destruct (kv !! key); by rewrite IH.
Qed.

(** C3: the row [toRecord] builds has exactly one cell per key, whatever
    keys the record has, and the cell of a key the record lacks is the
    empty string. *)
Theorem toRecord_length (kv : KeyValue) (keys : list string) :
  length (toRecord kv keys) = length keys ∧
  ∀ i key, keys !! i = Some key → kv !! key = None →
           toRecord kv keys !! i = Some "".
Proof.
  rewrite toRecord_cells. split; [by rewrite length_fmap|].
  intros i key Hi Hkey. rewrite list_lookup_fmap, Hi. simpl.
  unfold cell. by rewrite Hkey.
Qed.

Lemma toRecord_length_witness :
  let kv : KeyValue := {[ "/a" := VNumber "1"; "/z" := VBool true ]} in
  let keys := ["/a"; "/b"; "/c"] in
  length (toRecord kv keys) = 3 ∧ toRecord kv keys !! 1 = Some "".
Proof.
  pose proof (toRecord_length {[ "/a" := VNumber "1"; "/z" := VBool true ]}
                              ["/a"; "/b"; "/c"]) as [Hlen Hcell].
  split; [exact Hlen|].
  apply (Hcell 1 "/b"); [reflexivity | vm_compute; reflexivity].
Defined.

(** ** The comparator is a total preorder *)

Lemma comparison_self_opp (c : comparison) : c = CompOpp c → c = Eq.
Proof. by destruct c. Qed.

Lemma ascii_compare_lt_trans a b c :
  Ascii.compare a b = Lt → Ascii.compare b c = Lt → Ascii.compare a c = Lt.
Proof.
  unfold Ascii.compare. rewrite !N.compare_lt_iff. lia.
Qed.

Lemma string_compare_lt_trans s1 s2 s3 :
  String.compare s1 s2 = Lt → String.compare s2 s3 = Lt →
  String.compare s1 s3 = Lt.
Proof.
  revert s2 s3.
  induction s1 as [|a s1 IH]; intros [|b s2] [|c s3]; simpl; try done.
  destruct (Ascii.compare a b) eqn:Hab; try done;
    destruct (Ascii.compare b c) eqn:Hbc; try done; intros H1 H2.
  - apply Ascii.compare_eq_iff in Hab as ->. rewrite Hbc. eauto.
  - apply Ascii.compare_eq_iff in Hab as ->. by rewrite Hbc.
  - apply Ascii.compare_eq_iff in Hbc as <-. by rewrite Hab.
  - by rewrite (ascii_compare_lt_trans a b c).
Qed.

Lemma compareToken_antisym a b :
  jsonpointer.compareToken a b = CompOpp (jsonpointer.compareToken b a).
Proof.
  destruct a, b; simpl; try done.
  - apply N.compare_antisym.
  - apply String.compare_antisym.
Qed.

Lemma compareToken_eq a b : jsonpointer.compareToken a b = Eq → a = b.
Proof.
  destruct a, b; simpl; try done.
  - by intros ->%N.compare_eq_iff.
  - by intros ->%String.compare_eq_iff.
Qed.

Lemma compareToken_lt_trans a b c :
  jsonpointer.compareToken a b = Lt → jsonpointer.compareToken b c = Lt →
  jsonpointer.compareToken a c = Lt.
Proof.
  destruct a, b, c; simpl; try done.
  - rewrite !N.compare_lt_iff. lia.
  - apply string_compare_lt_trans.
Qed.

Lemma compareToken_refl a : jsonpointer.compareToken a a = Eq.
Proof. apply comparison_self_opp, compareToken_antisym. Qed.

Lemma compareTokens_antisym a b :
  jsonpointer.compareTokens a b = CompOpp (jsonpointer.compareTokens b a).
Proof.
  revert b. induction a as [|x a IH]; intros [|y b]; simpl; try done.
  rewrite (compareToken_antisym x y).
  destruct (jsonpointer.compareToken y x); simpl; auto.
Qed.

Lemma compareTokens_eq a b : jsonpointer.compareTokens a b = Eq → a = b.
Proof.
  revert b. induction a as [|x a IH]; intros [|y b]; simpl; try done.
  destruct (jsonpointer.compareToken x y) eqn:Hxy; try done.
  intros ->%IH. by apply compareToken_eq in Hxy as ->.
Qed.

Lemma compareTokens_refl a : jsonpointer.compareTokens a a = Eq.
Proof. apply comparison_self_opp, compareTokens_antisym. Qed.

Lemma compareTokens_lt_trans a b c :
  jsonpointer.compareTokens a b = Lt → jsonpointer.compareTokens b c = Lt →
  jsonpointer.compareTokens a c = Lt.
Proof.
  revert b c.
  induction a as [|x a IH]; intros [|y b] [|z c]; simpl; try done.
  destruct (jsonpointer.compareToken x y) eqn:Hxy; try done;
    destruct (jsonpointer.compareToken y z) eqn:Hyz; try done; intros H1 H2.
  - apply compareToken_eq in Hxy as ->. rewrite Hyz. eauto.
  - apply compareToken_eq in Hxy as ->. by rewrite Hyz.
  - apply compareToken_eq in Hyz as <-. by rewrite Hxy.
  - by rewrite (compareToken_lt_trans x y z).
Qed.

Lemma Less_irrefl p : Less p p = false.
Proof. unfold Less, jsonpointer.compare. by rewrite compareTokens_refl. Qed.

Lemma Less_asym p q : Less p q = true → Less q p = false.
Proof.
  unfold Less, jsonpointer.compare.
  rewrite (compareTokens_antisym (jsonpointer.tokens q)).
  by destruct (jsonpointer.compareTokens _ _).
Qed.

#[global] Instance pointerLe_total : Total pointerLe.
Proof.
  intros p q. unfold pointerLe.
  destruct (Less q p) eqn:Hqp; [right; by apply Less_asym | by left].
Qed.

#[global] Instance pointerLe_trans : Transitive pointerLe.
Proof.
  intros p q r. unfold pointerLe, Less, jsonpointer.compare.
  set (a := jsonpointer.tokens p). set (b := jsonpointer.tokens q).
  set (c := jsonpointer.tokens r).
  destruct (jsonpointer.compareTokens b a) eqn:Hba; try done;
    destruct (jsonpointer.compareTokens c b) eqn:Hcb; try done; intros _ _.
  - apply compareTokens_eq in Hba as ->. by rewrite Hcb.
  - apply compareTokens_eq in Hba as ->. by rewrite Hcb.
  - apply compareTokens_eq in Hcb as ->. by rewrite Hba.
  - rewrite compareTokens_antisym in Hba, Hcb.
    rewrite compareTokens_antisym.
    rewrite (compareTokens_lt_trans a b c); [done| |].
    + by destruct (jsonpointer.compareTokens a b).
    + by destruct (jsonpointer.compareTokens b c).
Qed.

Lemma StronglySorted_lookup_lt {A} (R : relation A) (l : list A) i j x y :
  StronglySorted R l → i < j → l !! i = Some x → l !! j = Some y → R x y.
Proof.
  intros Hl. revert i j.
  induction Hl as [|z l Hl IH Hz]; intros i j Hij Hi Hj; [done|].
  destruct j as [|j]; [lia|]. simpl in Hj.
  destruct i as [|i]; simpl in Hi.
  - injection Hi as ->. rewrite Forall_forall in Hz.
    apply Hz. by eapply list_elem_of_lookup_2.
  - apply (IH i j); [lia|done..].
Qed.

Lemma elementsOrder_perm X : elementsOrder X ≡ₚ elements X.
Proof. reflexivity. Qed.

Lemma mergeSort_perm pts : mergeSort pts ≡ₚ pts.
Proof. apply merge_sort_Permutation. Qed.

Lemma mergeSort_sorted pts i j p q :
  i < j → mergeSort pts !! i = Some p → mergeSort pts !! j = Some q →
  Less q p = false.
Proof.
  intros Hij Hi Hj.
  apply (StronglySorted_lookup_lt pointerLe (mergeSort pts) i j p q); try done.
  apply (StronglySorted_merge_sort pointerLe).
Qed.

(** ** The pointer syntax round trip *)

Lemma unescape_String c r :
  jsonpointer.unescape (String c r)
  = if Ascii.eqb c "~" then
      match r with
      | String d r' =>
          if Ascii.eqb d "0" then String "~" <$> jsonpointer.unescape r'
          else if Ascii.eqb d "1" then String "/" <$> jsonpointer.unescape r'
          else None
      | EmptyString => None
      end
    else String c <$> jsonpointer.unescape r.
Proof. reflexivity. Qed.

Lemma escape_unescape_step t :
  (∀ u, slashFree t → jsonpointer.unescape t = Some u →
        jsonpointer.escape u = t) ∧
  (∀ c u, slashFree (String c t) → jsonpointer.unescape (String c t) = Some u →
          jsonpointer.escape u = String c t).
Proof.
  induction t as [|d t [IH1 IH2]].
  - split; [by intros u _ [= <-]|].
    intros c u [Hc _]. simpl.
    destruct (Ascii.eqb_spec c "~") as [->|Hne]; [done|].
    intros [= <-]. simpl.
    destruct (Ascii.eqb_spec c "~"); [done|].
    by destruct (Ascii.eqb_spec c "/").
  - split; [apply IH2|].
    intros c u [Hc [Hd Ht]].
    rewrite (unescape_String c).
    destruct (Ascii.eqb_spec c "~") as [->|Hne].
    + destruct (Ascii.eqb_spec d "0") as [->|_].
      { destruct (jsonpointer.unescape t) as [u'|] eqn:Hu; [|done].
        intros [= <-]. simpl. by rewrite (IH1 u'). }
      destruct (Ascii.eqb_spec d "1") as [->|_]; [|done].
      destruct (jsonpointer.unescape t) as [u'|] eqn:Hu; [|done].
      intros [= <-]. simpl. by rewrite (IH1 u').
    + destruct (jsonpointer.unescape (String d t)) as [u'|] eqn:Hu;
        [|by intros [=]].
      intros [= <-]. cbn [jsonpointer.escape].
      destruct (Ascii.eqb_spec c "~"); [done|].
      destruct (Ascii.eqb_spec c "/"); [done|].
      f_equal. apply IH2; [by split|done].
Qed.

Lemma escape_unescape t u :
  slashFree t → jsonpointer.unescape t = Some u → jsonpointer.escape u = t.
Proof. apply escape_unescape_step. Qed.

Lemma append_String c s t : String c s +:+ t = String c (s +:+ t).
Proof. reflexivity. Qed.

Lemma append_empty t : EmptyString +:+ t = t.
Proof. reflexivity. Qed.

Lemma joinTokens_split r :
  joinTokens (jsonpointer.split r) = String "/" r.
Proof.
  induction r as [|c r IH]; [done|]. simpl.
  destruct (Ascii.eqb_spec c "/") as [->|Hne].
  - simpl. by rewrite append_empty, IH.
  - destruct (jsonpointer.split r) as [|t ts]; [done|].
    simpl in *. rewrite append_String. by injection IH as ->.
Qed.

Lemma split_slashFree r : Forall slashFree (jsonpointer.split r).
Proof.
  induction r as [|c r IH]; simpl; [by repeat constructor|].
  destruct (Ascii.eqb_spec c "/") as [->|Hne].
  - by constructor.
  - destruct (jsonpointer.split r) as [|t ts]; [by repeat constructor|].
    inversion_clear IH. by repeat constructor.
Qed.

Lemma String_joinTokens us :
  jsonpointer.String_ us = joinTokens (jsonpointer.escape <$> us).
Proof. induction us as [|u us IH]; csimpl; by rewrite ?IH. Qed.

Lemma mapM_unescape_escape ts us :
  Forall slashFree ts → mapM jsonpointer.unescape ts = Some us →
  jsonpointer.escape <$> us = ts.
Proof.
  rewrite mapM_Some. intros Hfree Hus. revert Hfree.
  induction Hus as [|t u ts us Htu _ IH]; intros Hfree; [done|].
  inversion_clear Hfree. csimpl.
  f_equal; [by apply escape_unescape | by apply IH].
Qed.

(** A pointer string that parses is the pointer-syntax rendering of the
    pointer it parses to. *)
Lemma New_String_ k p :
  jsonpointer.New k = Ok p → jsonpointer.String_ p = k.
Proof.
  destruct k as [|c r]; simpl; [by intros [= <-]|].
  destruct (Ascii.eqb_spec c "/") as [->|_]; [|done].
  destruct (mapM jsonpointer.unescape (jsonpointer.split r)) as [us|] eqn:Hus;
    [|done].
  intros [= <-]. rewrite String_joinTokens.
  rewrite (mapM_unescape_escape _ _ (split_slashFree r) Hus).
  apply joinTokens_split.
Qed.

Lemma New_Err k e : jsonpointer.New k = Err e → e = InvalidPointer k.
Proof.
  destruct k as [|c r]; simpl; [done|].
  destruct (Ascii.eqb c "/"); [|by intros [= <-]].
  destruct (mapM _ _); [done|by intros [= <-]].
Qed.

(** ** The pointer set *)

Lemma scanned_empty : scanned ∅ [].
Proof.
  split; [|split; [constructor|constructor]].
  intros k. rewrite lookup_empty. simpl. split; [done|].
  by intros ?%elem_of_nil.
Qed.

Lemma scanned_step set pts key pointer :
  scanned set pts → default false (set !! key) = false →
  jsonpointer.New key = Ok pointer →
  scanned (<[key := true]> set) (pts ++ [pointer]).
Proof.
  intros (Hset & Hnodup & Hpts) Hkey Hnew.
  pose proof (New_String_ _ _ Hnew) as Hstr.
  assert (key ∉ Strings pts) as Hfresh.
  { intros Hin%Hset. congruence. }
  unfold scanned, Strings in *. rewrite fmap_app. simpl. rewrite Hstr.
  split; [|split].
  - intros k. rewrite elem_of_app, list_elem_of_singleton, <-Hset.
    destruct (decide (key = k)) as [->|Hne].
    + rewrite lookup_insert_eq. simpl. naive_solver.
    + rewrite lookup_insert_ne by done. naive_solver.
  - apply NoDup_app. split; [done|]. split; [|apply NoDup_singleton].
    intros k Hk ->%list_elem_of_singleton. done.
  - apply Forall_app. split; [done|]. constructor; [|constructor].
    by rewrite Hstr.
Qed.

Section WriterProperties.

Variable rangeOrder : gset string → list string.
Hypothesis rangeOrder_perm : ∀ X, rangeOrder X ≡ₚ elements X.

Variable sort : pointers → pointers.
Hypothesis sort_perm : ∀ pts, sort pts ≡ₚ pts.
Hypothesis sort_sorted : ∀ pts i j p q,
  i < j → sort pts !! i = Some p → sort pts !! j = Some q → Less q p = false.

Lemma elem_of_Keys kv k : k ∈ Keys rangeOrder kv ↔ is_Some (kv !! k).
Proof.
  unfold Keys. by rewrite rangeOrder_perm, elem_of_elements, elem_of_dom.
Qed.

Lemma allPointersKeys_Ok keys set pts set' pts' :
  scanned set pts →
  allPointersKeys keys set pts = Ok (set', pts') →
  scanned set' pts' ∧
  ∀ k, k ∈ Strings pts' ↔ k ∈ Strings pts ∨ k ∈ keys.
Proof.
  revert set pts. induction keys as [|key keys IH]; intros set pts Hinv; simpl.
  - intros [= <- <-]. split; [done|]. intros k. rewrite elem_of_nil. tauto.
  - destruct (default false (set !! key)) eqn:Hseen.
    + intros Hrun. destruct (IH _ _ Hinv Hrun) as [Hinv' Hk].
      split; [done|]. intros k. rewrite Hk, elem_of_cons.
      destruct Hinv as (Hset & _). apply Hset in Hseen.
      naive_solver.
    + destruct (jsonpointer.New key) as [pointer|err] eqn:Hnew; [|done].
      intros Hrun.
      pose proof (scanned_step _ _ _ _ Hinv Hseen Hnew) as Hinv1.
      destruct (IH _ _ Hinv1 Hrun) as [Hinv' Hk].
      split; [done|]. intros k. rewrite Hk, elem_of_cons.
      unfold Strings. rewrite fmap_app, elem_of_app. simpl.
      rewrite (New_String_ _ _ Hnew), list_elem_of_singleton.
      naive_solver.
Qed.

Lemma allPointersKeys_Err keys set pts err :
  allPointersKeys keys set pts = Err err →
  ∃ key, key ∈ keys ∧ jsonpointer.New key = Err err.
Proof.
  revert set pts. induction keys as [|key keys IH]; intros set pts; simpl;
    [done|].
  destruct (default false (set !! key)).
  - intros (k & Hk & Hnew)%IH. exists k. by rewrite elem_of_cons; auto.
  - destruct (jsonpointer.New key) as [pointer|e] eqn:Hnew.
    + intros (k & Hk & Hnew')%IH. exists k. by rewrite elem_of_cons; auto.
    + intros [= <-]. exists key. by rewrite elem_of_cons; auto.
Qed.

Lemma allPointersLoop_Ok results set pts pts' :
  scanned set pts →
  allPointersLoop rangeOrder results set pts = Ok pts' →
  (∃ set', scanned set' pts') ∧
  ∀ k, k ∈ Strings pts' ↔ k ∈ Strings pts ∨ keyOf results k.
Proof.
  revert set pts.
  induction results as [|result results IH]; intros set pts Hinv; simpl.
  - intros [= <-]. split; [eauto|]. intros k. unfold keyOf.
    setoid_rewrite elem_of_nil. naive_solver.
  - destruct (allPointersKeys _ set pts) as [[set1 pts1]|err] eqn:Hkeys;
      [|done].
    intros Hrun.
    destruct (allPointersKeys_Ok _ _ _ _ _ Hinv Hkeys) as [Hinv1 Hk1].
    destruct (IH _ _ Hinv1 Hrun) as [Hinv' Hk].
    split; [done|]. intros k. rewrite Hk, Hk1, elem_of_Keys. unfold keyOf.
    setoid_rewrite elem_of_cons. naive_solver.
Qed.

Lemma allPointersLoop_Err results set pts err :
  allPointersLoop rangeOrder results set pts = Err err →
  ∃ key, keyOf results key ∧ jsonpointer.New key = Err err.
Proof.
  revert set pts.
  induction results as [|result results IH]; intros set pts; simpl; [done|].
  destruct (allPointersKeys _ set pts) as [[set1 pts1]|e] eqn:Hkeys.
  - intros (k & (r & Hr & Hk) & Hnew)%IH. exists k. split; [|done].
    exists r. by rewrite elem_of_cons; auto.
  - intros [= <-].
    destruct (allPointersKeys_Err _ _ _ _ Hkeys) as (k & Hk & Hnew).
    exists k. split; [|done]. exists result.
    rewrite elem_of_cons, <-elem_of_Keys. auto.
Qed.

(** What [allPointers] returns when it succeeds: one pointer for every
    key of the batch, the one the key parses to. *)
Lemma allPointers_Ok results pts :
  allPointers rangeOrder results = Ok pts →
  NoDup (Strings pts) ∧
  (∀ k, k ∈ Strings pts ↔ keyOf results k) ∧
  Forall (λ p, jsonpointer.New (jsonpointer.String_ p) = Ok p) pts.
Proof.
  intros Hrun.
  destruct (allPointersLoop_Ok _ _ _ _ scanned_empty Hrun)
    as [[set' (_ & Hnodup & Hpts)] Hk].
  split; [done|]. split; [|done].
  intros k. rewrite Hk. simpl. rewrite elem_of_nil. tauto.
Qed.

Lemma allPointers_Err results err :
  allPointers rangeOrder results = Err err →
  ∃ key, keyOf results key ∧ jsonpointer.New key = Err err.
Proof. apply allPointersLoop_Err. Qed.

Lemma allPointers_parsed results pts k :
  allPointers rangeOrder results = Ok pts → keyOf results k →
  ∃ p, p ∈ pts ∧ jsonpointer.String_ p = k ∧ jsonpointer.New k = Ok p.
Proof.
  intros (_ & Hk & Hpts)%allPointers_Ok Hkey.
  apply Hk in Hkey. unfold Strings in Hkey.
  apply list_elem_of_fmap in Hkey as (p & -> & Hp).
  exists p. rewrite Forall_forall in Hpts. auto.
Qed.

(** ** The sink *)

Lemma Write_Some w record w' err :
  Write w record = (w', Some err) → w' = w.
Proof.
  unfold Write. destruct (onWrite _ _ _); by intros [= <- ?].
Qed.

Lemma Write_None w record w' :
  Write w record = (w', None) →
  written (Writer w') = written (Writer w) ++ [record] ∧
  HeaderStyle w' = HeaderStyle w ∧ Transpose w' = Transpose w.
Proof.
  unfold Write. destruct (onWrite _ _ _); [done|]. by intros [= <-].
Qed.

Lemma emitted_app w w' rows :
  written (Writer w') = written (Writer w) ++ rows → emitted w w' = rows.
Proof. unfold emitted. intros ->. by rewrite drop_app_length. Qed.

Lemma emitted_same w : emitted w w = [].
Proof. apply emitted_app. by rewrite app_nil_r. Qed.

Lemma getHeader_label w pts : getHeader w pts = label (HeaderStyle w) <$> pts.
Proof.
  unfold getHeader, label, Strings, Slashes, DotNotations.
  by repeat destruct (_ =? _)%N.
Qed.

Lemma writeRecords_None w results keys w' :
  writeRecords w results keys = (w', None) →
  written (Writer w')
  = written (Writer w) ++ ((λ result, toRecord result keys) <$> results).
Proof.
  revert w. induction results as [|result results IH]; intros w; simpl.
  - intros [= <-]. by rewrite app_nil_r.
  - destruct (Write w (toRecord result keys)) as [w1 [err|]] eqn:Hw; [done|].
    intros Hrun%IH. apply Write_None in Hw as (Hw & _).
    by rewrite Hrun, Hw, <-app_assoc.
Qed.

Lemma writeLines_None w results header i keys w' :
  writeLines w results header i keys = (w', Return None) →
  written (Writer w')
  = written (Writer w)
    ++ zip_with (toTransposedRecord results) keys (drop i header).
Proof.
  revert w i. induction keys as [|key keys IH]; intros w i; simpl.
  - intros [= <-]. by rewrite app_nil_r.
  - destruct (header !! i) as [h|] eqn:Hh; [|done].
    destruct (Write w _) as [w1 [err|]] eqn:Hw; [done|].
    intros Hrun%IH. apply Write_None in Hw as (Hw & _).
    rewrite (drop_S _ _ _ Hh). simpl.
    by rewrite Hrun, Hw, <-app_assoc.
Qed.

Lemma writeLines_no_panic w results header i keys w' :
  i + length keys ≤ length header →
  writeLines w results header i keys ≠ (w', Panic).
Proof.
  revert w i. induction keys as [|key keys IH]; intros w i Hlen; simpl;
    [done|].
  simpl in Hlen.
  destruct (lookup_lt_is_Some_2 header i) as [h ->]; [lia|].
  destruct (Write w _) as [w1 [err|]]; [done|].
  apply IH. lia.
Qed.

(** ** Error handling *)

(** C7: when some key of some record of the batch does not tokenize,
    [WriteCSV] returns the [InvalidPointer] error of a key of the batch
    and the writer it leaves is the writer it was given: no row, header or
    data, has reached the sink, in either orientation. *)
Theorem WriteCSV_invalid_pointer (w : CSVWriter) (results : list KeyValue)
    (key : string) (err : error) :
  keyOf results key → jsonpointer.New key = Err err →
  ∃ bad, keyOf results bad ∧
         jsonpointer.New bad = Err (InvalidPointer bad) ∧
         WriteCSV rangeOrder sort w results
         = (w, Return (Some (InvalidPointer bad))) ∧
         emitted w w = [].
Proof.
  intros Hkey Hnew.
  destruct (allPointers rangeOrder results) as [pts|e] eqn:Hpts.
  - destruct (allPointers_parsed _ _ _ Hpts Hkey) as (p & _ & _ & Hp).
    congruence.
  - destruct (allPointers_Err _ _ Hpts) as (bad & Hbad & Hnewbad).
    pose proof (New_Err _ _ Hnewbad) as ->.
    exists bad. split; [done|]. split; [done|]. split; [|apply emitted_same].
    unfold WriteCSV, writeTransposedCSV, writeCSV. rewrite Hpts.
    by destruct (Transpose w).
Qed.

(** ** The sorted pointer set *)

Lemma sort_parsed pts :
  Forall (λ p, jsonpointer.New (jsonpointer.String_ p) = Ok p) pts →
  Forall (λ p, jsonpointer.New (jsonpointer.String_ p) = Ok p) (sort pts).
Proof. by rewrite sort_perm. Qed.

Lemma Strings_sort_perm pts : Strings (sort pts) ≡ₚ Strings pts.
Proof. unfold Strings. by rewrite sort_perm. Qed.

(** Two keys of a batch whose pointers are in the order [Less] stand in
    that order in the sorted pointer set. *)
Lemma sort_before results pts k1 k2 p1 p2 :
  allPointers rangeOrder results = Ok pts →
  keyOf results k1 → keyOf results k2 →
  jsonpointer.New k1 = Ok p1 → jsonpointer.New k2 = Ok p2 →
  Less p1 p2 = true →
  ∃ i j, i < j ∧ sort pts !! i = Some p1 ∧ sort pts !! j = Some p2.
Proof.
  intros Hpts Hk1 Hk2 Hp1 Hp2 Hless.
  destruct (allPointers_parsed _ _ _ Hpts Hk1) as (p1' & Hin1 & _ & Hp1').
  destruct (allPointers_parsed _ _ _ Hpts Hk2) as (p2' & Hin2 & _ & Hp2').
  assert (p1' = p1) as -> by congruence.
  assert (p2' = p2) as -> by congruence.
  rewrite <-(sort_perm pts) in Hin1, Hin2.
  apply list_elem_of_lookup in Hin1 as [i Hi].
  apply list_elem_of_lookup in Hin2 as [j Hj].
  exists i, j. split; [|done].
  destruct (lt_eq_lt_dec i j) as [[Hlt| ->]|Hgt]; [done| |].
  - assert (p1 = p2) as -> by congruence.
    rewrite Less_irrefl in Hless. done.
  - rewrite (sort_sorted pts j i p2 p1 Hgt Hj Hi) in Hless. done.
Qed.

Lemma writeCSV_None w results w' :
  writeCSV rangeOrder sort w results = (w', None) →
  ∃ pts, allPointers rangeOrder results = Ok pts ∧
         emitted w w'
         = getHeader w (sort pts)
           :: ((λ result, toRecord result (Strings (sort pts))) <$> results).
Proof.
  unfold writeCSV.
  destruct (allPointers rangeOrder results) as [pts|e]; [|done].
  destruct (Write w _) as [w1 [e|]] eqn:Hw; [done|].
  destruct (writeRecords w1 _ _) as [w2 [e|]] eqn:Hrows; [done|].
  intros [= <- _]. exists pts. split; [done|].
  apply Write_None in Hw as (Hw & _).
  apply writeRecords_None in Hrows.
  apply emitted_app. by rewrite Hrows, Hw, <-app_assoc.
Qed.

Lemma writeTransposedCSV_None w results w' :
  writeTransposedCSV rangeOrder sort w results = (w', Return None) →
  ∃ pts, allPointers rangeOrder results = Ok pts ∧
         emitted w w'
         = zip_with (toTransposedRecord results)
                    (Strings (sort pts)) (getHeader w (sort pts)).
Proof.
  unfold writeTransposedCSV.
  destruct (allPointers rangeOrder results) as [pts|e]; [|done].
  destruct (writeLines w _ _ _ _) as [w1 [[e|]|]] eqn:Hlines; [done| |done].
  intros [= <- _]. exists pts. split; [done|].
  apply writeLines_None in Hlines. by apply emitted_app.
Qed.

Lemma writeTransposedCSV_no_panic w results w' :
  writeTransposedCSV rangeOrder sort w results ≠ (w', Panic).
Proof.
  unfold writeTransposedCSV.
  destruct (allPointers rangeOrder results) as [pts|e]; [|done].
  destruct (writeLines w _ _ _ _) as [w1 [[e|]|]] eqn:Hlines; try done.
  apply writeLines_no_panic in Hlines; [done|].
  unfold Strings. by rewrite getHeader_label, !length_fmap.
Qed.

(** C1: the header row [writeCSV] emits is laid out by the sorted
    pointer set: when the write returns without error, the first row
    emitted is the header of the sorted pointers of the batch, and in it,
    as in the sorted keys the rows are projected on, [/a/2] stands before
    [/a/10] whenever both are keys of the batch (indices compare as
    numbers), and [/a] before [/a/b] whenever both are keys of the batch (a
    strict prefix sorts first). *)
Theorem sort_numeric_and_prefix (w w' : CSVWriter)
    (results : list KeyValue) :
  writeCSV rangeOrder sort w results = (w', None) →
  ∃ pts header rows,
    allPointers rangeOrder results = Ok pts ∧
    emitted w w' = header :: rows ∧
    header = getHeader w (sort pts) ∧
    (keyOf results "/a/2" → keyOf results "/a/10" →
     ∃ i j, i < j ∧
            Strings (sort pts) !! i = Some "/a/2" ∧
            Strings (sort pts) !! j = Some "/a/10" ∧
            header !! i = Some (label (HeaderStyle w) ["a"; "2"]) ∧
            header !! j = Some (label (HeaderStyle w) ["a"; "10"])) ∧
    (keyOf results "/a" → keyOf results "/a/b" →
     ∃ i j, i < j ∧
            Strings (sort pts) !! i = Some "/a" ∧
            Strings (sort pts) !! j = Some "/a/b" ∧
            header !! i = Some (label (HeaderStyle w) ["a"]) ∧
            header !! j = Some (label (HeaderStyle w) ["a"; "b"])).
Proof.
  intros (pts & Hpts & Hrows)%writeCSV_None.
  exists pts. eexists _, _. split; [done|]. split; [exact Hrows|].
  split; [done|]. rewrite getHeader_label. unfold Strings.
  split; intros Hk1 Hk2.
  - destruct (sort_before results pts "/a/2" "/a/10" ["a"; "2"] ["a"; "10"])
      as (i & j & Hij & Hi & Hj); try done.
    exists i, j. by rewrite !list_lookup_fmap, Hi, Hj.
  - destruct (sort_before results pts "/a" "/a/b" ["a"] ["a"; "b"])
      as (i & j & Hij & Hi & Hj); try done.
    exists i, j. by rewrite !list_lookup_fmap, Hi, Hj.
Qed.

(** C2: the pointer set [allPointers] computes holds the pointer string
    of every key of the batch exactly once and nothing else; the header
    row [writeCSV] emits has one label per pointer of that set, in sorted
    order, and under [JSONPointerStyle] the labels are the keys of the
    batch, each exactly once. *)
Theorem allPointers_union (results : list KeyValue) (pts : pointers) :
  allPointers rangeOrder results = Ok pts →
  NoDup (Strings pts) ∧
  (∀ key, key ∈ Strings pts ↔ keyOf results key) ∧
  ∀ w w', writeCSV rangeOrder sort w results = (w', None) →
    ∃ header rows,
      emitted w w' = header :: rows ∧
      header = label (HeaderStyle w) <$> sort pts ∧
      Strings (sort pts) ≡ₚ Strings pts ∧
      (HeaderStyle w = JSONPointerStyle →
       NoDup header ∧ ∀ key, key ∈ header ↔ keyOf results key).
Proof.
  intros Hpts. destruct (allPointers_Ok _ _ Hpts) as (Hnodup & Hkeys & _).
  split; [done|]. split; [done|].
  intros w w' (pts' & Hpts' & Hrows)%writeCSV_None.
  assert (pts' = pts) as -> by congruence.
  eexists _, _. split; [exact Hrows|].
  split; [apply getHeader_label|].
  split; [apply Strings_sort_perm|].
  intros Hstyle. rewrite getHeader_label, Hstyle.
  change (fmap (label JSONPointerStyle)) with Strings.
  split.
  - by rewrite Strings_sort_perm.
  - intros key. by rewrite Strings_sort_perm.
Qed.

(** ** Row-major against transposed output *)

Lemma join_fmap_cons {A C} (a : A → C) (b : A → list C) (ps : list A) :
  mjoin ((λ p, a p :: b p) <$> ps) ≡ₚ (a <$> ps) ++ mjoin (b <$> ps).
Proof.
  induction ps as [|p ps IH]; [done|]. csimpl. rewrite IH.
  constructor. by rewrite !app_assoc, (Permutation_app_comm (b p)).
Qed.

Lemma join_fmap_nil {A C} (ps : list A) :
  mjoin ((λ _, @nil C) <$> ps) = [].
Proof. induction ps as [|p ps IH]; [done|]. by csimpl. Qed.

(** Reading a table record by record, each across the columns, or column
    by column, each across the records, yields the same cells. *)
Lemma cells_transpose {A B C} (g : A → nat → B → C) (ps : list A)
    (rs : list B) :
  mjoin (imap (λ i r, (λ p, g p i r) <$> ps) rs)
  ≡ₚ mjoin ((λ p, imap (g p) rs) <$> ps).
Proof.
  revert g. induction rs as [|r rs IH]; intros g.
  - simpl. by rewrite join_fmap_nil.
  - assert ((λ p, imap (g p) (r :: rs)) <$> ps
            = (λ p, g p 0 r :: imap (λ i, g p (S i)) rs) <$> ps) as ->
      by by apply list_fmap_ext.
    rewrite join_fmap_cons, imap_cons. csimpl.
    apply Permutation_app; [done|].
    apply (IH (λ p i, g p (S i))).
Qed.

Lemma readRows_writeCSV style (spts : pointers) (results : list KeyValue) :
  readRows ((label style <$> spts)
            :: ((λ result, toRecord result (Strings spts)) <$> results))
  = mjoin (imap (λ i result,
             (λ p, (label style p, i, cell result (jsonpointer.String_ p)))
               <$> spts) results).
Proof.
  unfold readRows. f_equal. rewrite imap_fmap. apply imap_ext.
  intros i result _. simpl. unfold rowCells, Strings.
  rewrite toRecord_cells, <-list_fmap_compose.
  by rewrite zip_with_fmap_l, zip_with_fmap_r, zip_with_diag.
Qed.

Lemma readLines_writeTransposedCSV style (spts : pointers)
    (results : list KeyValue) :
  readLines (zip_with (toTransposedRecord results)
                      (Strings spts) (label style <$> spts))
  = mjoin ((λ p, imap (λ i result,
               (label style p, i, cell result (jsonpointer.String_ p)))
             results) <$> spts).
Proof.
  unfold readLines, Strings. f_equal.
  rewrite zip_with_fmap_l, zip_with_fmap_r, zip_with_diag.
  rewrite <-list_fmap_compose. apply list_fmap_ext. intros _ p _. simpl.
  by rewrite transposedCells_cells, imap_fmap.
Qed.

(** C4: for one batch, the cells read from the rows [writeCSV] emits (the
    header row, then one row per record in input order) and the cells
    read from the lines [writeTransposedCSV] emits (one line per sorted
    key: its label, then its cell in every record in input order) are the
    same (label, record index, cell text) triples with the same
    multiplicities. *)
Theorem transpose_symmetry (w wt w' wt' : CSVWriter)
    (results : list KeyValue) :
  HeaderStyle wt = HeaderStyle w →
  writeCSV rangeOrder sort w results = (w', None) →
  writeTransposedCSV rangeOrder sort wt results = (wt', Return None) →
  readRows (emitted w w') ≡ₚ readLines (emitted wt wt').
Proof.
  intros Hstyle (pts & Hpts & ->)%writeCSV_None
    (pts' & Hpts' & ->)%writeTransposedCSV_None.
  assert (pts' = pts) as -> by congruence.
  rewrite !getHeader_label, Hstyle.
  rewrite readRows_writeCSV, readLines_writeTransposedCSV.
  apply (cells_transpose
           (λ p i result,
              (label (HeaderStyle w) p, i,
               cell result (jsonpointer.String_ p)))).
Qed.

(** ** The header specification *)

Lemma foldl_insert_lookup (hs : list string) (m : KeyValue) k :
  foldl (λ result h, <[h := VString ""]> result) m hs !! k
  = if decide (k ∈ hs) then Some (VString "") else m !! k.
Proof.
  revert m. induction hs as [|h hs IH]; intros m; cbn [foldl].
  - destruct (decide (k ∈ [])) as [Hk|_]; [by apply elem_of_nil in Hk|done].
  - rewrite IH, lookup_insert.
    repeat case_decide; subst; try done; exfalso; set_solver.
Qed.

Lemma headerRecord_lookup csvHeader k :
  headerRecord rangeOrder csvHeader !! k
  = if decide (k ∈ csvHeader) then Some (VString "") else None.
Proof.
  unfold headerRecord. rewrite foldl_insert_lookup, lookup_empty.
  assert (k ∈ rangeOrder csvHeader ↔ k ∈ csvHeader) as Hk
    by by rewrite rangeOrder_perm, elem_of_elements.
  repeat case_decide; tauto.
Qed.

Lemma keyOf_headerRecord csvHeader k :
  keyOf [headerRecord rangeOrder csvHeader] k ↔ k ∈ csvHeader.
Proof.
  unfold keyOf. setoid_rewrite list_elem_of_singleton. split.
  - intros (r & -> & Hk). rewrite headerRecord_lookup in Hk.
    case_decide; [done|]. by destruct Hk.
  - intros Hk. eexists. split; [done|]. rewrite headerRecord_lookup.
    case_decide; [eauto|done].
Qed.

Lemma allPointers_succeeds results :
  (∀ k, keyOf results k → ∃ p, jsonpointer.New k = Ok p) →
  ∃ pts, allPointers rangeOrder results = Ok pts.
Proof.
  intros Hvalid.
  destruct (allPointers rangeOrder results) as [pts|e] eqn:Hpts; [eauto|].
  destruct (allPointers_Err _ _ Hpts) as (bad & Hbad & Hnew).
  destruct (Hvalid _ Hbad) as [p Hp]. congruence.
Qed.

(** The keys [WriteCSVByHeader] and [FormatHeader] work with are the keys
    of the header specification, each once, in sorted pointer order. *)
Lemma header_keys csvHeader pts :
  allPointers rangeOrder [headerRecord rangeOrder csvHeader] = Ok pts →
  Strings (sort pts) ≡ₚ elements csvHeader ∧
  keysSorted (Strings (sort pts)).
Proof.
  intros (Hnodup & Hkeys & Hparsed)%allPointers_Ok. split.
  - rewrite Strings_sort_perm.
    apply NoDup_Permutation; [done|apply NoDup_elements|].
    intros k. by rewrite Hkeys, keyOf_headerRecord, elem_of_elements.
  - apply sort_parsed in Hparsed. rewrite Forall_forall in Hparsed.
    intros i j ki kj p q Hij Hi Hj Hp Hq. unfold Strings in Hi, Hj.
    apply list_lookup_fmap_Some in Hi as (p' & -> & Hi).
    apply list_lookup_fmap_Some in Hj as (q' & -> & Hj).
    pose proof (Hparsed p' (list_elem_of_lookup_2 _ _ _ Hi)) as Hp'.
    pose proof (Hparsed q' (list_elem_of_lookup_2 _ _ _ Hj)) as Hq'.
    assert (p' = p) as -> by congruence.
    assert (q' = q) as -> by congruence.
    by apply (sort_sorted pts i j).
Qed.

Lemma keysSorted_pair keys k1 k2 p1 p2 :
  keys ≡ₚ [k1; k2] → keysSorted keys →
  jsonpointer.New k1 = Ok p1 → jsonpointer.New k2 = Ok p2 →
  Less p1 p2 = true →
  keys = [k1; k2].
Proof.
  intros Hperm Hsorted Hp1 Hp2 Hless.
  pose proof (Permutation_length Hperm) as Hlen.
  destruct keys as [|a [|b [|]]]; try done.
  assert (a ∈ [k1; k2]) as Ha by (rewrite <-Hperm; set_solver).
  assert (b ∈ [k1; k2]) as Hb by (rewrite <-Hperm; set_solver).
  assert (k1 ∈ [a; b]) as Hk1 by (rewrite Hperm; set_solver).
  assert (k2 ∈ [a; b]) as Hk2 by (rewrite Hperm; set_solver).
  destruct (decide (a = k1)) as [->|Ha1].
  - destruct (decide (b = k2)) as [->|Hb2]; [done|].
    assert (b = k1) as -> by set_solver. assert (k2 = k1) as -> by set_solver.
    done.
  - assert (a = k2) as -> by set_solver. assert (b = k1) as -> by set_solver.
    rewrite (Hsorted 0 1 k2 k1 p2 p1) in Hless; done || lia.
Qed.

(** C6: for the header specification [{"/x", "/y"}] and a writer with
    [JSONPointerStyle], [FormatHeader] computes the row [/x], [/y], and
    that row is the one row [WriterHeader] emits; when the sink refuses the
    row nothing is emitted and the error of the sink is returned.  No
    record takes part. *)
Theorem WriterHeader_x_y (w : CSVWriter) :
  HeaderStyle w = JSONPointerStyle →
  FormatHeader rangeOrder sort w {[ "/x"; "/y" ]} = Ok ["/x"; "/y"] ∧
  ∀ w' err,
    WriterHeader rangeOrder sort w {[ "/x"; "/y" ]} = (w', err) →
    (emitted w w' = [["/x"; "/y"]] ∧ err = FlushError w') ∨
    (emitted w w' = [] ∧ is_Some err ∧
     err = onWrite (Writer w) (written (Writer w)) ["/x"; "/y"]).
Proof.
  intros Hstyle.
  assert (FormatHeader rangeOrder sort w {[ "/x"; "/y" ]}
          = Ok ["/x"; "/y"]) as Hformat.
  { unfold FormatHeader.
    destruct (allPointers_succeeds [headerRecord rangeOrder {[ "/x"; "/y" ]}])
      as [pts Hpts].
    { intros k Hk%keyOf_headerRecord.
      apply elem_of_union in Hk as [->%elem_of_singleton| ->%elem_of_singleton];
        eexists; vm_compute; reflexivity. }
    rewrite Hpts. f_equal.
    destruct (header_keys _ _ Hpts) as [Hperm Hsorted].
    rewrite getHeader_label, Hstyle.
    change (fmap (label JSONPointerStyle)) with Strings.
    apply (keysSorted_pair _ "/x" "/y" ["x"] ["y"]); try done.
    rewrite Hperm, elements_union_singleton, elements_singleton; [done|].
    by intros [=]%elem_of_singleton. }
  split; [done|].
  intros w' err. unfold WriterHeader. rewrite Hformat.
  destruct (Write w ["/x"; "/y"]) as [w1 [e|]] eqn:Hw.
  - intros [= <- <-]. right.
    pose proof (Write_Some _ _ _ _ Hw) as ->.
    split; [apply emitted_same|]. split; [eauto|].
    unfold Write in Hw. destruct (onWrite _ _ _); by simplify_eq.
  - intros [= <- <-]. left. split; [|done].
    apply Write_None in Hw as (Hw & _). by apply emitted_app.
Qed.

(** ** Writing by a declared header *)

Lemma filled_refl csvHeader σ : filled csvHeader σ σ.
Proof.
  intros l. destruct (σ !! l) as [result|]; [|done].
  exists result. split; [done|]. split; [done|]. congruence.
Qed.

Lemma filled_trans csvHeader σ1 σ2 σ3 :
  filled csvHeader σ1 σ2 → filled csvHeader σ2 σ3 → filled csvHeader σ1 σ3.
Proof.
  intros H12 H23 l. specialize (H12 l). specialize (H23 l).
  destruct (σ1 !! l) as [r1|].
  - destruct H12 as (r2 & Hr2 & Hkeep12 & Hnew12). rewrite Hr2 in H23.
    destruct H23 as (r3 & Hr3 & Hkeep23 & Hnew23).
    exists r3. split; [done|]. split; [by auto|].
    intros k v Hk3 Hk1.
    destruct (r2 !! k) as [v2|] eqn:Hk2.
    + pose proof (Hkeep23 _ _ Hk2). simplify_eq. by eapply Hnew12.
    + by eapply Hnew23.
  - by rewrite H12 in H23.
Qed.

Lemma filled_insert csvHeader (σ : store) l result h :
  σ !! l = Some result → result !! h = None → h ∈ csvHeader →
  filled csvHeader σ (<[l := <[h := VString ""]> result]> σ).
Proof.
  intros Hl Hh Hin l'. destruct (decide (l' = l)) as [->|Hne].
  - rewrite Hl, lookup_insert_eq. eexists. split; [done|]. split.
    + intros k v Hk. rewrite lookup_insert_ne; [done|congruence].
    + intros k v Hk Hnone. destruct (decide (k = h)) as [->|Hkh].
      * rewrite lookup_insert_eq in Hk. by simplify_eq.
      * rewrite lookup_insert_ne in Hk by done. congruence.
  - rewrite lookup_insert_ne by done. apply filled_refl.
Qed.

Lemma filled_cell csvHeader σ σ' l k :
  filled csvHeader σ σ' → cell (deref σ' l) k = cell (deref σ l) k.
Proof.
  intros Hfill. specialize (Hfill l). unfold deref, cell.
  destruct (σ !! l) as [r|].
  - destruct Hfill as (r' & -> & Hkeep & Hnew). simpl.
    destruct (r !! k) as [v|] eqn:Hk; [by rewrite (Hkeep _ _ Hk)|].
    destruct (r' !! k) as [v'|] eqn:Hk'; [|done].
    by destruct (Hnew _ _ Hk' Hk) as [_ ->].
  - by rewrite Hfill.
Qed.

Lemma fillMissing_filled csvHeader σ l hs σ' :
  (∀ h, h ∈ hs → h ∈ csvHeader) →
  fillMissing σ l hs = Some σ' → filled csvHeader σ σ'.
Proof.
  revert σ. induction hs as [|h hs IH]; intros σ Hhs; simpl.
  - intros [= <-]. apply filled_refl.
  - assert (∀ h', h' ∈ hs → h' ∈ csvHeader) as Hhs'
      by (intros h' Hh'; apply Hhs; by right).
    destruct (deref σ l !! h) as [v|] eqn:Hh; [by apply IH|].
    destruct (σ !! l) as [result|] eqn:Hl; [|done].
    intros Hrun%IH; [|done].
    eapply filled_trans; [|exact Hrun].
    apply filled_insert; [done| |apply Hhs; by left].
    unfold deref in Hh. by rewrite Hl in Hh.
Qed.

Lemma rangeOrder_elem csvHeader h :
  h ∈ rangeOrder csvHeader → h ∈ csvHeader.
Proof. by rewrite rangeOrder_perm, elem_of_elements. Qed.

Lemma writeByHeaderLoop_spec w σ results csvHeader keys w' σ' out :
  writeByHeaderLoop rangeOrder w σ results csvHeader keys = (w', σ', out) →
  filled csvHeader σ σ' ∧
  ∃ n,
    written (Writer w')
    = written (Writer w)
      ++ ((λ l, cell (deref σ l) <$> keys) <$> take n results) ∧
    (out = Return None → n = length results).
Proof.
  revert w σ. induction results as [|l results IH]; intros w σ; simpl.
  - intros [= <- <- <-]. split; [apply filled_refl|].
    exists 0. by rewrite app_nil_r.
  - destruct (fillMissing σ l _) as [σ1|] eqn:Hfill.
    2: { intros [= <- <- <-]. split; [apply filled_refl|].
         exists 0. by rewrite app_nil_r. }
    apply (fillMissing_filled csvHeader) in Hfill;
      [|apply rangeOrder_elem].
    destruct (Write w _) as [w1 [err|]] eqn:Hw.
    { intros [= <- <- <-]. split; [done|].
      apply Write_Some in Hw as ->. exists 0. by rewrite app_nil_r. }
    intros (Hfill1 & n & Hrows & Hn)%IH. split; [by eapply filled_trans|].
    exists (S n). split; [|by intros ->%Hn].
    rewrite Hrows. apply Write_None in Hw as (-> & _).
    rewrite <-app_assoc. f_equal. simpl. f_equal.
    + rewrite toRecord_cells. apply list_fmap_ext. intros _ k _.
      by eapply filled_cell.
    + apply list_fmap_ext. intros _ l' _.
      apply list_fmap_ext. intros _ k _. by eapply filled_cell.
Qed.

(** C5: every row [WriteCSVByHeader] emits has one cell for every key
    declared in [csvHeader] and no other cell, the keys taken in sorted
    pointer order: the rows are those of the first [n] records, in input
    order, all of them when the call returns without error; a cell is the
    text of the record's value under its key, and the empty string when
    the record lacks the key.  Keys of a record that [csvHeader] does not
    declare have no column and no cell.  When a declared key is not a
    pointer, that error is returned and no row is emitted. *)
Theorem WriteCSVByHeader_columns (w w' : CSVWriter) (σ σ' : store)
    (results : list loc) (csvHeader : CSVHeader) (out : outcome) :
  WriteCSVByHeader rangeOrder sort w σ results csvHeader = (w', σ', out) →
  (∃ bad, bad ∈ csvHeader ∧
          jsonpointer.New bad = Err (InvalidPointer bad) ∧
          out = Return (Some (InvalidPointer bad)) ∧
          emitted w w' = []) ∨
  (∃ keys n,
     keys ≡ₚ elements csvHeader ∧
     keysSorted keys ∧
     emitted w w' = (λ l, cell (deref σ l) <$> keys) <$> take n results ∧
     (out = Return None → n = length results)).
Proof.
  unfold WriteCSVByHeader.
  destruct (allPointers rangeOrder _) as [pts|e] eqn:Hpts.
  - destruct (header_keys _ _ Hpts) as [Hperm Hsorted].
    destruct (writeByHeaderLoop _ _ _ _ _ _) as [[w1 σ1] out1] eqn:Hloop.
    apply writeByHeaderLoop_spec in Hloop as (_ & n & Hrows & Hn).
    intros Hout. right. exists (Strings (sort pts)), n.
    split; [done|]. split; [done|].
    destruct out1 as [[err|]|]; injection Hout as <- <- <-;
      (split; [by apply emitted_app|]); try done.
    intros _. by apply Hn.
  - intros [= <- <- <-]. left.
    destruct (allPointers_Err _ _ Hpts) as (bad & Hbad & Hnew).
    pose proof (New_Err _ _ Hnew) as ->.
    exists bad. rewrite <-keyOf_headerRecord.
    split; [done|]. split; [done|]. split; [done|]. apply emitted_same.
Qed.

(** C9: whatever [WriteCSVByHeader] returns, every record of the store
    is still there, every entry it had before the call is unchanged, and
    every entry it has gained is an empty string under a key declared in
    [csvHeader]. *)
Theorem WriteCSVByHeader_frame (w w' : CSVWriter) (σ σ' : store)
    (results : list loc) (csvHeader : CSVHeader) (out : outcome) :
  WriteCSVByHeader rangeOrder sort w σ results csvHeader = (w', σ', out) →
  ∀ l result, σ !! l = Some result →
    ∃ result', σ' !! l = Some result' ∧
      (∀ k v, result !! k = Some v → result' !! k = Some v) ∧
      (∀ k v, result' !! k = Some v → result !! k = None →
              k ∈ csvHeader ∧ v = VString "").
Proof.
  intros Hrun.
  assert (filled csvHeader σ σ') as Hfill.
  { revert Hrun. unfold WriteCSVByHeader.
    destruct (allPointers rangeOrder _) as [pts|e].
    2: { intros [= <- <- <-]. apply filled_refl. }
    destruct (writeByHeaderLoop _ _ _ _ _ _) as [[w1 σ1] out1] eqn:Hloop.
    apply writeByHeaderLoop_spec in Hloop as [Hfill _].
    by destruct out1 as [[err|]|]; intros [= <- <- <-]. }
  intros l result Hl. specialize (Hfill l). by rewrite Hl in Hfill.
Qed.

(** ** Cells of a row and of a transposed line *)

(** X1: the line [toTransposedRecord] builds for a key has the label in
    front and then one cell per record, in input order: the text of the
    record's value under the key, or the empty string when the record
    lacks the key. *)
Theorem toTransposedRecord_cells (results : list KeyValue)
    (key header : string) :
  length (toTransposedRecord results key header) = S (length results) ∧
  toTransposedRecord results key header !! 0 = Some header ∧
  ∀ i result, results !! i = Some result →
    toTransposedRecord results key header !! S i
    = Some (match result !! key with
            | Some value => toString value
            | None => ""
            end).
Proof.
  unfold toTransposedRecord. rewrite transposedCells_cells.
  split; [by rewrite length_cons, length_fmap|]. split; [done|].
  intros i result Hi. simpl. by rewrite list_lookup_fmap, Hi.
Qed.

(** X2: under a key the record has, the row [toRecord] builds holds the
    text of the record's value. *)
Theorem toRecord_present (kv : KeyValue) (keys : list string) (i : nat)
    (key : string) (value : Value) :
  keys !! i = Some key → kv !! key = Some value →
  toRecord kv keys !! i = Some (toString value).
Proof.
  intros Hi Hkey. rewrite toRecord_cells, list_lookup_fmap, Hi. simpl.
  unfold cell. by rewrite Hkey.
Qed.

(** X3: [toRecord] reads a record only under the given keys: two records
    that agree under every one of the keys give the same row, whatever
    other keys they have. *)
Theorem toRecord_agree (kv kv' : KeyValue) (keys : list string) :
  (∀ key, key ∈ keys → kv !! key = kv' !! key) →
  toRecord kv keys = toRecord kv' keys.
Proof.
  intros Hagree. rewrite !toRecord_cells.
  apply list_fmap_ext. intros i key Hi. unfold cell.
  by rewrite (Hagree key (list_elem_of_lookup_2 _ _ _ Hi)).
Qed.

(** ** The shape of the outputs *)

Lemma keyOf_batchKeys results k : keyOf results k ↔ k ∈ batchKeys results.
Proof.
  unfold keyOf, batchKeys. rewrite elem_of_union_list. split.
  - intros (result & Hin & Hk). exists (dom result).
    split; [by apply list_elem_of_fmap_2|by apply elem_of_dom].
  - intros (X & (result & -> & Hin)%list_elem_of_fmap & Hk).
    exists result. by rewrite <-elem_of_dom.
Qed.

Lemma allPointers_length results pts :
  allPointers rangeOrder results = Ok pts →
  length pts = size (batchKeys results).
Proof.
  intros (Hnodup & Hkeys & _)%allPointers_Ok.
  rewrite <-(length_fmap jsonpointer.String_). fold (Strings pts).
  unfold size, set_size. simpl. apply Permutation_length.
  apply NoDup_Permutation; [done|apply NoDup_elements|].
  intros k. by rewrite Hkeys, keyOf_batchKeys, elem_of_elements.
Qed.

Lemma length_sort pts : length (sort pts) = length pts.
Proof. by rewrite sort_perm. Qed.

(** X4: when [writeCSV] returns without error it has emitted one header
    row and one row per record, and every row has as many cells as the
    batch has different keys. *)
Theorem writeCSV_shape (w w' : CSVWriter) (results : list KeyValue) :
  writeCSV rangeOrder sort w results = (w', None) →
  length (emitted w w') = S (length results) ∧
  Forall (λ row, length row = size (batchKeys results)) (emitted w w').
Proof.
  intros (pts & Hpts & ->)%writeCSV_None.
  pose proof (allPointers_length _ _ Hpts) as Hlen.
  split; [by rewrite length_cons, length_fmap|].
  constructor.
  - by rewrite getHeader_label, length_fmap, length_sort.
  - apply Forall_fmap, Forall_forall. intros result _. simpl.
    rewrite toRecord_cells. unfold Strings.
    by rewrite !length_fmap, length_sort.
Qed.

(** X5: [writeTransposedCSV] never panics: the index into the header is
    always in range.  When it returns without error it has emitted one
    line per different key of the batch, and every line has one cell more
    than the batch has records. *)
Theorem writeTransposedCSV_shape (w w' : CSVWriter)
    (results : list KeyValue) (out : outcome) :
  writeTransposedCSV rangeOrder sort w results = (w', out) →
  out ≠ Panic ∧
  (out = Return None →
   length (emitted w w') = size (batchKeys results) ∧
   Forall (λ line, length line = S (length results)) (emitted w w')).
Proof.
  intros Hrun. split.
  - intros ->. by apply writeTransposedCSV_no_panic in Hrun.
  - intros ->. apply writeTransposedCSV_None in Hrun as (pts & Hpts & ->).
    pose proof (allPointers_length _ _ Hpts) as Hlen.
    rewrite getHeader_label. unfold Strings.
    rewrite zip_with_fmap_l, zip_with_fmap_r, zip_with_diag. split.
    + by rewrite length_fmap, length_sort.
    + apply Forall_fmap, Forall_forall. intros p _. simpl.
      by rewrite transposedCells_cells, length_fmap.
Qed.

(** Within one iteration order, the transposed output is the row-major
    output with rows and columns exchanged. *)
Lemma transposed_cell_same_order (w wt w' wt' : CSVWriter)
    (results : list KeyValue) (i j : nat) :
  HeaderStyle wt = HeaderStyle w →
  writeCSV rangeOrder sort w results = (w', None) →
  writeTransposedCSV rangeOrder sort wt results = (wt', Return None) →
  emitted w w' !! i ≫= (.!! j) = emitted wt wt' !! j ≫= (.!! i).
Proof.
  intros Hstyle (pts & Hpts & ->)%writeCSV_None
    (pts' & Hpts' & ->)%writeTransposedCSV_None.
  assert (pts' = pts) as -> by congruence.
  rewrite !getHeader_label, Hstyle. unfold Strings.
  rewrite zip_with_fmap_l, zip_with_fmap_r, zip_with_diag.
  rewrite (list_lookup_fmap _ (sort pts) j).
  destruct i as [|i]; simpl.
  - rewrite list_lookup_fmap. by destruct (sort pts !! j).
  - rewrite list_lookup_fmap.
    destruct (results !! i) as [result|] eqn:Hi; simpl.
    + rewrite toRecord_cells, !list_lookup_fmap.
      destruct (sort pts !! j) as [p|]; simpl; [|done].
      by rewrite transposedCells_cells, list_lookup_fmap, Hi.
    + destruct (sort pts !! j) as [p|]; simpl; [|done].
      by rewrite transposedCells_cells, list_lookup_fmap, Hi.
Qed.

(** ** A sink that refuses a row *)

Lemma Write_Some_inv w record w' e :
  Write w record = (w', Some e) →
  w' = w ∧ onWrite (Writer w) (written (Writer w)) record = Some e.
Proof.
  unfold Write. destruct (onWrite _ _ _) as [e'|] eqn:He; [|done].
  by intros [= <- <-].
Qed.

Lemma writeRecords_any w results keys w' err :
  writeRecords w results keys = (w', err) →
  ∃ n,
    written (Writer w')
    = written (Writer w)
      ++ take n ((λ result, toRecord result keys) <$> results) ∧
    ((n = length results ∧ err = None) ∨
     (∃ row e,
        ((λ result, toRecord result keys) <$> results) !! n = Some row ∧
        onWrite (Writer w') (written (Writer w')) row = Some e ∧
        err = Some e)).
Proof.
  revert w. induction results as [|result results IH]; intros w; simpl.
  - intros [= <- <-]. exists 0. rewrite app_nil_r. auto.
  - destruct (Write w (toRecord result keys)) as [w1 [e|]] eqn:Hw.
    + intros [= <- <-]. apply Write_Some_inv in Hw as [-> Hw].
      exists 0. rewrite app_nil_r. split; [done|]. right. eauto.
    + intros (n & Hrows & Hn)%IH. apply Write_None in Hw as (Hw & _).
      exists (S n). split.
      * by rewrite Hrows, Hw, <-app_assoc.
      * destruct Hn as [[-> ->]|Hn]; [by left|by right].
Qed.

(** X7: when the keys of the batch parse, the rows [writeCSV] has emitted
    are always the first [n] rows of the table, header first, each once
    and in order.  Either all rows were emitted and the error returned is
    what the sink reports after the flush, or row [n] is the first row the
    sink refused and the error returned is the error of that refusal. *)
Theorem writeCSV_prefix (w w' : CSVWriter) (results : list KeyValue)
    (pts : pointers) (err : option error) :
  allPointers rangeOrder results = Ok pts →
  writeCSV rangeOrder sort w results = (w', err) →
  ∃ n,
    emitted w w' = take n (rowMajor w (sort pts) results) ∧
    ((n = S (length results) ∧ err = FlushError w') ∨
     (∃ row e,
        rowMajor w (sort pts) results !! n = Some row ∧
        onWrite (Writer w') (written (Writer w')) row = Some e ∧
        err = Some e)).
Proof.
  intros Hpts. unfold writeCSV, rowMajor. rewrite Hpts.
  destruct (Write w _) as [w1 [e|]] eqn:Hw.
  - intros [= <- <-]. apply Write_Some_inv in Hw as [-> Hw].
    exists 0. split; [apply emitted_same|]. right. eauto.
  - apply Write_None in Hw as (Hw & _).
    destruct (writeRecords w1 _ _) as [w2 err2] eqn:Hrows.
    apply writeRecords_any in Hrows as (n & Hrows & Hn).
    intros Hout. exists (S n). split.
    + assert (w' = w2) as -> by (by destruct err2; injection Hout).
      apply emitted_app. by rewrite Hrows, Hw, <-app_assoc.
    + destruct Hn as [[-> ->]|(row & e & Hrow & He & ->)].
      * left. by injection Hout as <- <-.
      * right. injection Hout as <- <-. eauto.
Qed.

Lemma writeLines_any w results header i keys w' out :
  i + length keys ≤ length header →
  writeLines w results header i keys = (w', out) →
  ∃ n,
    written (Writer w')
    = written (Writer w)
      ++ take n (zip_with (toTransposedRecord results) keys (drop i header)) ∧
    ((n = length keys ∧ out = Return None) ∨
     (∃ line e,
        zip_with (toTransposedRecord results) keys (drop i header) !! n
        = Some line ∧
        onWrite (Writer w') (written (Writer w')) line = Some e ∧
        out = Return (Some e))).
Proof.
  revert w i. induction keys as [|key keys IH]; intros w i Hlen; simpl.
  - intros [= <- <-]. exists 0. rewrite app_nil_r. auto.
  - simpl in Hlen.
    destruct (lookup_lt_is_Some_2 header i) as [h Hh]; [lia|].
    rewrite Hh, (drop_S _ _ _ Hh). simpl.
    destruct (Write w _) as [w1 [e|]] eqn:Hw.
    + intros [= <- <-]. apply Write_Some_inv in Hw as [-> Hw].
      exists 0. rewrite app_nil_r. split; [done|]. right. eauto.
    + intros (n & Hrows & Hn)%IH; [|lia].
      apply Write_None in Hw as (Hw & _).
      exists (S n). split.
      * by rewrite Hrows, Hw, <-app_assoc.
      * destruct Hn as [[-> ->]|Hn]; [by left|by right].
Qed.

(** X8: when the keys of the batch parse, the lines
    [writeTransposedCSV] has emitted are always the first [n] lines of
    the transposed table, each once and in the order of the sorted keys.
    Either all lines were emitted and the error returned is what the sink
    reports after the flush, or line [n] is the first line the sink refused
    and the error returned is the error of that refusal. *)
Theorem writeTransposedCSV_prefix (w w' : CSVWriter)
    (results : list KeyValue) (pts : pointers) (out : outcome) :
  allPointers rangeOrder results = Ok pts →
  writeTransposedCSV rangeOrder sort w results = (w', out) →
  ∃ n,
    emitted w w' = take n (transposedLines w (sort pts) results) ∧
    ((n = length pts ∧ out = Return (FlushError w')) ∨
     (∃ line e,
        transposedLines w (sort pts) results !! n = Some line ∧
        onWrite (Writer w') (written (Writer w')) line = Some e ∧
        out = Return (Some e))).
Proof.
  intros Hpts. unfold writeTransposedCSV, transposedLines. rewrite Hpts.
  destruct (writeLines w _ _ _ _) as [w1 out1] eqn:Hlines.
  apply writeLines_any in Hlines as (n & Hrows & Hn).
  2: { unfold Strings. by rewrite getHeader_label, !length_fmap. }
  rewrite drop_0 in Hrows, Hn.
  intros Hout. exists n.
  destruct Hn as [[-> ->]|(line & e & Hline & He & ->)].
  - injection Hout as <- <-. split; [by apply emitted_app|]. left.
    unfold Strings. by rewrite length_fmap, length_sort.
  - injection Hout as <- <-. split; [by apply emitted_app|]. right. eauto.
Qed.

(** ** The order of first occurrence *)

Lemma allPointersKeys_prefix keys set pts set' pts' :
  allPointersKeys keys set pts = Ok (set', pts') → pts `prefix_of` pts'.
Proof.
  revert set pts. induction keys as [|key keys IH]; intros set pts; simpl.
  - by intros [= <- <-].
  - destruct (default false (set !! key)); [by apply IH|].
    destruct (jsonpointer.New key) as [pointer|e]; [|done].
    intros Hrun%IH. etrans; [|exact Hrun]. by apply prefix_app_r.
Qed.

Lemma allPointersLoop_prefix results set pts pts' :
  allPointersLoop rangeOrder results set pts = Ok pts' →
  pts `prefix_of` pts'.
Proof.
  revert set pts.
  induction results as [|result results IH]; intros set pts; simpl.
  - by intros [= <-].
  - destruct (allPointersKeys _ set pts) as [[set1 pts1]|e] eqn:Hkeys;
      [|done].
    intros Hrun%IH. etrans; [|exact Hrun].
    by eapply allPointersKeys_prefix.
Qed.

Lemma allPointersLoop_app_Ok results1 results2 set pts pts' :
  allPointersLoop rangeOrder (results1 ++ results2) set pts = Ok pts' →
  ∃ pts1, allPointersLoop rangeOrder results1 set pts = Ok pts1 ∧
          pts1 `prefix_of` pts'.
Proof.
  revert set pts.
  induction results1 as [|result results1 IH]; intros set pts; simpl.
  - intros Hrun%allPointersLoop_prefix. eauto.
  - destruct (allPointersKeys _ set pts) as [[set1 pts1]|e]; [|done].
    apply IH.
Qed.

(** X9: [allPointers] lists the pointers in the order in which their keys
    first occur in the batch: in the pointers of one call, a key that
    occurs among the first [n] records stands before every key of the
    batch that does not. *)
Theorem allPointers_first_occurrence (results : list KeyValue)
    (pts : pointers) (n : nat) (k1 k2 : string) :
  allPointers rangeOrder results = Ok pts →
  keyOf (take n results) k1 →
  ¬ keyOf (take n results) k2 → keyOf results k2 →
  ∃ i j, i < j ∧ Strings pts !! i = Some k1 ∧ Strings pts !! j = Some k2.
Proof.
  intros Hpts Hk1 Hnk2 Hk2.
  destruct (allPointers_Ok _ _ Hpts) as (_ & Hkeys & _).
  apply Hkeys in Hk2.
  unfold allPointers in Hpts. rewrite <-(take_drop n results) in Hpts.
  apply allPointersLoop_app_Ok in Hpts as (pts1 & Hpts1 & [more ->]).
  destruct (allPointers_Ok _ _ Hpts1) as (_ & Hkeys1 & _).
  apply Hkeys1 in Hk1. rewrite <-Hkeys1 in Hnk2.
  unfold Strings in *. rewrite fmap_app in *.
  apply elem_of_app in Hk2 as [Hk2|Hk2]; [done|].
  apply list_elem_of_lookup in Hk1 as [i Hi].
  apply list_elem_of_lookup in Hk2 as [j Hj].
  pose proof (lookup_lt_Some _ _ _ Hi) as Hlt.
  exists i, (length (jsonpointer.String_ <$> pts1) + j).
  split; [lia|]. split.
  - by rewrite lookup_app_l.
  - rewrite lookup_app_r by lia. rewrite <-Hj. f_equal. lia.
Qed.

(** ** A batch without keys *)

Lemma allPointers_no_keys results :
  (∀ key, ¬ keyOf results key) → allPointers rangeOrder results = Ok [].
Proof.
  intros Hnone.
  destruct (allPointers_succeeds results) as [pts Hpts].
  { intros k Hk. by destruct (Hnone k). }
  rewrite Hpts. f_equal.
  destruct (allPointers_Ok _ _ Hpts) as (_ & Hkeys & _).
  destruct pts as [|p pts]; [done|].
  destruct (Hnone (jsonpointer.String_ p)). apply Hkeys. by left.
Qed.

Lemma sort_nil : sort [] = [].
Proof. apply Permutation_nil. by rewrite sort_perm. Qed.

(** X11: for a batch in which no record has any key, the empty batch
    among them, [writeCSV] still emits a header row: when it returns
    without error it has emitted an empty header row and an empty row per
    record.  [writeTransposedCSV] emits nothing for such a batch and
    returns what the sink reports after the flush. *)
Theorem write_no_keys (w : CSVWriter) (results : list KeyValue) :
  (∀ key, ¬ keyOf results key) →
  (∀ w', writeCSV rangeOrder sort w results = (w', None) →
         emitted w w' = replicate (S (length results)) []) ∧
  writeTransposedCSV rangeOrder sort w results = (w, Return (FlushError w)).
Proof.
  intros Hpts%allPointers_no_keys. split.
  - intros w' (pts & Hpts' & ->)%writeCSV_None.
    assert (pts = []) as -> by congruence.
    rewrite sort_nil, getHeader_label. simpl. f_equal.
    by apply const_fmap.
  - unfold writeTransposedCSV. rewrite Hpts, sort_nil. done.
Qed.

(** ** The header row of a header specification *)

Lemma size_elements (X : gset string) : length (elements X) = size X.
Proof. done. Qed.

(** X12: the header [FormatHeader] computes has one label per key of the
    header specification; under [JSONPointerStyle] the labels are the
    declared keys themselves, each once, in sorted pointer order. *)
Theorem FormatHeader_shape (w : CSVWriter) (csvHeader : CSVHeader)
    (header : list string) :
  FormatHeader rangeOrder sort w csvHeader = Ok header →
  length header = size csvHeader ∧
  (HeaderStyle w = JSONPointerStyle →
   header ≡ₚ elements csvHeader ∧ keysSorted header).
Proof.
  unfold FormatHeader.
  destruct (allPointers rangeOrder _) as [pts|e] eqn:Hpts; [|done].
  intros [= <-]. destruct (header_keys _ _ Hpts) as [Hperm Hsorted].
  rewrite getHeader_label. split.
  - rewrite <-size_elements, <-Hperm. unfold Strings.
    by rewrite !length_fmap.
  - intros ->. by change (fmap (label JSONPointerStyle)) with Strings.
Qed.

(** X13: [FormatHeader] fails exactly when some key of the header
    specification does not parse; the error is the [InvalidPointer] error
    of such a key, and [WriterHeader] returns it and leaves the writer as
    it was, with nothing emitted. *)
Theorem FormatHeader_invalid (w : CSVWriter) (csvHeader : CSVHeader) :
  ((∃ bad e, bad ∈ csvHeader ∧ jsonpointer.New bad = Err e) ↔
   (∃ e, FormatHeader rangeOrder sort w csvHeader = Err e)) ∧
  ∀ e, FormatHeader rangeOrder sort w csvHeader = Err e →
       (∃ bad, bad ∈ csvHeader ∧ jsonpointer.New bad = Err e ∧
               e = InvalidPointer bad) ∧
       WriterHeader rangeOrder sort w csvHeader = (w, Some e).
Proof.
  unfold WriterHeader, FormatHeader.
  destruct (allPointers rangeOrder _) as [pts|e0] eqn:Hpts.
  - split; [|done]. split; [|by intros [e [=]]].
    intros (bad & e & Hbad%keyOf_headerRecord & Hnew).
    destruct (allPointers_parsed _ _ _ Hpts Hbad) as (p & _ & _ & Hp).
    congruence.
  - destruct (allPointers_Err _ _ Hpts)
      as (bad & Hbad%keyOf_headerRecord & Hnew).
    split; [split; eauto|].
    intros e [= <-]. split; [|done].
    exists bad. split; [done|]. split; [done|]. by apply New_Err in Hnew.
Qed.

(** ** The store after writing by a declared header *)

Lemma filled_present csvHeader σ σ' l h :
  filled csvHeader σ σ' →
  is_Some (deref σ l !! h) → is_Some (deref σ' l !! h).
Proof.
  intros Hfill [v Hv]. specialize (Hfill l). unfold deref in *.
  destruct (σ !! l) as [r|]; [|done].
  destruct Hfill as (r' & -> & Hkeep & _). simpl in *. eauto.
Qed.

Lemma filled_nil csvHeader (σ σ' : store) l :
  filled csvHeader σ σ' → σ' !! l = None → σ !! l = None.
Proof.
  intros Hfill Hl. specialize (Hfill l).
  destruct (σ !! l) as [r|]; [|done].
  destruct Hfill as (r' & Hr' & _). congruence.
Qed.

Lemma fillMissing_None (σ : store) l hs :
  fillMissing σ l hs = None → σ !! l = None ∧ ∃ h, h ∈ hs.
Proof.
  revert σ. induction hs as [|h hs IH]; intros σ; simpl; [done|].
  destruct (deref σ l !! h) as [v|].
  - intros [Hl [h' Hh']]%IH. split; [done|]. exists h'. by right.
  - destruct (σ !! l) as [result|] eqn:Hl.
    + intros [Hl' _]%IH. by rewrite lookup_insert_eq in Hl'.
    + intros _. split; [done|]. exists h. by left.
Qed.

Lemma fillMissing_other (σ σ' : store) l l' hs :
  fillMissing σ l hs = Some σ' → l' ≠ l → σ' !! l' = σ !! l'.
Proof.
  intros Hrun Hne. revert σ Hrun.
  induction hs as [|h hs IH]; intros σ; simpl; [by intros [= <-]|].
  destruct (deref σ l !! h) as [v|]; [apply IH|].
  destruct (σ !! l) as [result|]; [|done].
  intros ->%IH. by rewrite lookup_insert_ne.
Qed.

Lemma fillMissing_complete (csvHeader : CSVHeader) (σ σ' : store) l hs :
  (∀ h, h ∈ hs → h ∈ csvHeader) →
  fillMissing σ l hs = Some σ' →
  ∀ h, h ∈ hs → is_Some (deref σ' l !! h).
Proof.
  revert σ. induction hs as [|h0 hs IH]; intros σ Hhs; simpl.
  - intros _ h []%elem_of_nil.
  - assert (∀ h', h' ∈ hs → h' ∈ csvHeader) as Hhs'
      by (intros h' Hh'; apply Hhs; by right).
    destruct (deref σ l !! h0) as [v|] eqn:Hh0.
    + intros Hrun h [->|Hh]%elem_of_cons; [|by eapply IH].
      eapply filled_present; [by eapply fillMissing_filled|by rewrite Hh0].
    + destruct (σ !! l) as [result|] eqn:Hl; [|done].
      intros Hrun h [->|Hh]%elem_of_cons; [|by eapply IH].
      eapply filled_present; [by eapply fillMissing_filled|].
      unfold deref. rewrite lookup_insert_eq. simpl.
      by rewrite lookup_insert_eq.
Qed.

Lemma fillMissing_id (σ : store) l hs :
  (∀ h, h ∈ hs → is_Some (deref σ l !! h)) → fillMissing σ l hs = Some σ.
Proof.
  intros Hhs. induction hs as [|h hs IH]; simpl; [done|].
  destruct (Hhs h) as [v ->]; [by left|].
  apply IH. intros h' Hh'. apply Hhs. by right.
Qed.

Lemma writeByHeaderLoop_Panic w σ results csvHeader keys w' σ' :
  writeByHeaderLoop rangeOrder w σ results csvHeader keys = (w', σ', Panic) →
  ∃ l, l ∈ results ∧ σ !! l = None ∧ ∃ h, h ∈ csvHeader.
Proof.
  revert w σ. induction results as [|l results IH]; intros w σ; simpl;
    [done|].
  destruct (fillMissing σ l _) as [σ1|] eqn:Hfill.
  - apply (fillMissing_filled csvHeader) in Hfill; [|apply rangeOrder_elem].
    destruct (Write w _) as [w1 [err|]]; [done|].
    intros (l' & Hl' & Hnil & Hh)%IH. exists l'.
    split; [by right|]. split; [by eapply filled_nil|done].
  - intros _. apply fillMissing_None in Hfill as [Hl [h Hh%rangeOrder_elem]].
    exists l. split; [by left|eauto].
Qed.

Lemma writeByHeaderLoop_complete w σ results csvHeader keys w' σ' :
  writeByHeaderLoop rangeOrder w σ results csvHeader keys
  = (w', σ', Return None) →
  ∀ l h, l ∈ results → h ∈ csvHeader → is_Some (deref σ' l !! h).
Proof.
  revert w σ. induction results as [|l results IH]; intros w σ; simpl.
  - intros _ l h []%elem_of_nil.
  - destruct (fillMissing σ l _) as [σ1|] eqn:Hfill; [|done].
    destruct (Write w _) as [w1 [err|]]; [done|].
    intros Hrun l' h [->|Hl']%elem_of_cons Hh; [|by eapply IH].
    apply writeByHeaderLoop_spec in Hrun as [Hfilled _].
    eapply filled_present; [exact Hfilled|].
    eapply (fillMissing_complete csvHeader); [apply rangeOrder_elem|done|].
    by rewrite rangeOrder_perm, elem_of_elements.
Qed.

Lemma writeByHeaderLoop_other w σ results csvHeader keys w' σ' out l :
  writeByHeaderLoop rangeOrder w σ results csvHeader keys = (w', σ', out) →
  l ∉ results → σ' !! l = σ !! l.
Proof.
  revert w σ. induction results as [|l0 results IH]; intros w σ; simpl.
  - by intros [= <- <- <-].
  - intros Hrun [Hne Hl]%not_elem_of_cons. revert Hrun.
    destruct (fillMissing σ l0 _) as [σ1|] eqn:Hfill;
      [|by intros [= <- <- <-]].
    pose proof (fillMissing_other _ _ _ _ _ Hfill Hne) as Hσ1.
    destruct (Write w _) as [w1 [err|]]; [by intros [= <- <- <-]|].
    intros Hrun%IH; [|done]. congruence.
Qed.

Lemma writeByHeaderLoop_id w σ results csvHeader keys w' σ' out :
  (∀ l h, l ∈ results → h ∈ csvHeader → is_Some (deref σ l !! h)) →
  writeByHeaderLoop rangeOrder w σ results csvHeader keys = (w', σ', out) →
  σ' = σ.
Proof.
  revert w. induction results as [|l results IH]; intros w Hfull; simpl.
  - by intros [= <- <- <-].
  - rewrite fillMissing_id.
    2: { intros h Hh%rangeOrder_elem. apply Hfull; [by left|done]. }
    destruct (Write w _) as [w1 [err|]]; [by intros [= <- <- <-]|].
    apply IH. intros l' h Hl'. apply Hfull. by right.
Qed.

Lemma WriteCSVByHeader_loop w σ results csvHeader w' σ' out :
  WriteCSVByHeader rangeOrder sort w σ results csvHeader = (w', σ', out) →
  (w' = w ∧ σ' = σ ∧ ∃ e, out = Return (Some e) ∧
     allPointers rangeOrder [headerRecord rangeOrder csvHeader] = Err e) ∨
  (∃ keys w1 out1,
     writeByHeaderLoop rangeOrder w σ results csvHeader keys
     = (w1, σ', out1) ∧
     (out = Panic ↔ out1 = Panic) ∧ (out = Return None → out1 = Return None)).
Proof.
  unfold WriteCSVByHeader.
  destruct (allPointers rangeOrder _) as [pts|e].
  - destruct (writeByHeaderLoop _ _ _ _ _ _) as [[w1 σ1] out1] eqn:Hloop.
    intros Hout. right. exists (Strings (sort pts)), w1, out1.
    destruct out1 as [[err|]|]; injection Hout as <- <- <-; done.
  - intros [= <- <- <-]. left. eauto.
Qed.

(** X14: [WriteCSVByHeader] panics only on an assignment into a nil
    map: some record of the batch is nil and the header specification
    declares a key.  With no nil record in the batch it never panics. *)
Theorem WriteCSVByHeader_panic (w w' : CSVWriter) (σ σ' : store)
    (results : list loc) (csvHeader : CSVHeader) :
  WriteCSVByHeader rangeOrder sort w σ results csvHeader = (w', σ', Panic) →
  ∃ l, l ∈ results ∧ σ !! l = None ∧ ∃ h, h ∈ csvHeader.
Proof.
  intros [(_ & _ & e & [=] & _)|(keys & w1 & out1 & Hloop & Hpanic & _)]
    %WriteCSVByHeader_loop.
  assert (out1 = Panic) as -> by by apply Hpanic.
  by eapply writeByHeaderLoop_Panic.
Qed.

(** X15: when [WriteCSVByHeader] returns without error, every record of
    the batch has every key the header specification declares. *)
Theorem WriteCSVByHeader_complete (w w' : CSVWriter) (σ σ' : store)
    (results : list loc) (csvHeader : CSVHeader) :
  WriteCSVByHeader rangeOrder sort w σ results csvHeader
  = (w', σ', Return None) →
  ∀ l h, l ∈ results → h ∈ csvHeader → is_Some (deref σ' l !! h).
Proof.
  intros [(_ & _ & e & [=] & _)|(keys & w1 & out1 & Hloop & _ & Hnone)]
    %WriteCSVByHeader_loop.
  rewrite (Hnone eq_refl) in Hloop.
  by eapply writeByHeaderLoop_complete.
Qed.

(** X16: [WriteCSVByHeader] assigns only into the records of the batch:
    whatever it returns, a record of the store that is not in the batch is
    exactly as it was. *)
Theorem WriteCSVByHeader_other (w w' : CSVWriter) (σ σ' : store)
    (results : list loc) (csvHeader : CSVHeader) (out : outcome) (l : loc) :
  WriteCSVByHeader rangeOrder sort w σ results csvHeader = (w', σ', out) →
  l ∉ results → σ' !! l = σ !! l.
Proof.
  intros [(_ & -> & _)|(keys & w1 & out1 & Hloop & _)]%WriteCSVByHeader_loop;
    [done|].
  by eapply writeByHeaderLoop_other.
Qed.

(** X17: when every record of the batch already has every declared key,
    [WriteCSVByHeader] assigns nothing: whatever it returns, the store is
    the one it was given. *)
Theorem WriteCSVByHeader_unchanged (w w' : CSVWriter) (σ σ' : store)
    (results : list loc) (csvHeader : CSVHeader) (out : outcome) :
  (∀ l h, l ∈ results → h ∈ csvHeader → is_Some (deref σ l !! h)) →
  WriteCSVByHeader rangeOrder sort w σ results csvHeader = (w', σ', out) →
  σ' = σ.
Proof.
  intros Hfull
    [(_ & -> & _)|(keys & w1 & out1 & Hloop & _)]%WriteCSVByHeader_loop;
    [done|].
  by eapply writeByHeaderLoop_id.
Qed.

(** X18: filling is done once: after a call of [WriteCSVByHeader] that
    returned without error, a second call with the same batch and header
    specification, on any writer, leaves the store as the first call left
    it. *)
Theorem WriteCSVByHeader_twice (w1 w1' w2 w2' : CSVWriter)
    (σ σ1 σ2 : store) (results : list loc) (csvHeader : CSVHeader)
    (out : outcome) :
  WriteCSVByHeader rangeOrder sort w1 σ results csvHeader
  = (w1', σ1, Return None) →
  WriteCSVByHeader rangeOrder sort w2 σ1 results csvHeader
  = (w2', σ2, out) →
  σ2 = σ1.
Proof.
  intros [(_ & _ & e & [=] & _)|(keys & w & out1 & Hloop & _ & Hnone)]
    %WriteCSVByHeader_loop.
  rewrite (Hnone eq_refl) in Hloop.
  pose proof (writeByHeaderLoop_complete _ _ _ _ _ _ _ Hloop) as Hfull.
  intros [(_ & -> & _)|(keys2 & w' & out2 & Hloop2 & _)]
    %WriteCSVByHeader_loop; [done|].
  by eapply writeByHeaderLoop_id.
Qed.

End WriterProperties.

(** ** Independence of the iteration order *)

Section IterationOrders.

Variables rangeOrder1 rangeOrder2 : gset string → list string.
Hypothesis rangeOrder1_perm : ∀ X, rangeOrder1 X ≡ₚ elements X.
Hypothesis rangeOrder2_perm : ∀ X, rangeOrder2 X ≡ₚ elements X.

Variable sort : pointers → pointers.
Hypothesis sort_perm : ∀ pts, sort pts ≡ₚ pts.
Hypothesis sort_sorted : ∀ pts i j p q,
  i < j → sort pts !! i = Some p → sort pts !! j = Some q → Less q p = false.

Lemma headerRecord_orders csvHeader :
  headerRecord rangeOrder1 csvHeader = headerRecord rangeOrder2 csvHeader.
Proof.
  apply map_eq. intros k.
  by rewrite
    (headerRecord_lookup rangeOrder1 rangeOrder1_perm
       sort sort_perm sort_sorted),
    (headerRecord_lookup rangeOrder2 rangeOrder2_perm
       sort sort_perm sort_sorted).
Qed.

Lemma allPointers_same_keys results1 results2 pts1 pts2 :
  (∀ k, keyOf results1 k ↔ keyOf results2 k) →
  allPointers rangeOrder1 results1 = Ok pts1 →
  allPointers rangeOrder2 results2 = Ok pts2 →
  pts1 ≡ₚ pts2.
Proof.
  intros Hsame Hpts1 Hpts2.
  destruct (allPointers_Ok _ rangeOrder1_perm _ _ Hpts1)
    as (Hnodup1 & Hkeys1 & Hparsed1).
  destruct (allPointers_Ok _ rangeOrder2_perm _ _ Hpts2)
    as (Hnodup2 & Hkeys2 & Hparsed2).
  rewrite Forall_forall in Hparsed1, Hparsed2.
  assert (∀ ptsA ptsB : pointers,
            (∀ k, k ∈ Strings ptsA → k ∈ Strings ptsB) →
            (∀ p, p ∈ ptsA → jsonpointer.New (jsonpointer.String_ p) = Ok p) →
            (∀ p, p ∈ ptsB → jsonpointer.New (jsonpointer.String_ p) = Ok p) →
            ∀ p, p ∈ ptsA → p ∈ ptsB) as Hsub.
  { intros ptsA ptsB Hk HA HB p Hp.
    assert (jsonpointer.String_ p ∈ Strings ptsB) as Hin
      by (apply Hk; by apply list_elem_of_fmap_2).
    apply list_elem_of_fmap in Hin as (q & Heq & Hq).
    pose proof (HA p Hp) as Hnew. rewrite Heq, (HB q Hq) in Hnew.
    by injection Hnew as ->. }
  apply NoDup_Permutation; [by eapply NoDup_fmap_1..|].
  intros p. split; apply Hsub; try done.
  - intros k. rewrite Hkeys1, Hkeys2. apply Hsame.
  - intros k. rewrite Hkeys1, Hkeys2. apply Hsame.
Qed.

Lemma allPointers_orders_Ok results pts1 :
  allPointers rangeOrder1 results = Ok pts1 →
  ∃ pts2, allPointers rangeOrder2 results = Ok pts2 ∧ pts1 ≡ₚ pts2.
Proof.
  intros Hpts1.
  destruct (allPointers_succeeds _ rangeOrder2_perm results) as [pts2 Hpts2].
  { intros k Hk.
    destruct (allPointers_parsed _ rangeOrder1_perm _ _ _ Hpts1 Hk)
      as (p & _ & _ & Hp). eauto. }
  exists pts2. split; [done|].
  by eapply allPointers_same_keys.
Qed.

Lemma sort_StronglySorted pts : StronglySorted pointerLe (sort pts).
Proof.
  pose proof (sort_sorted pts) as Hsorted.
  induction (sort pts) as [|p l IH]; constructor.
  - apply IH. intros i j x y Hij Hi Hj.
    apply (Hsorted (S i) (S j)); [lia|done..].
  - apply Forall_forall. intros q [j Hj]%list_elem_of_lookup.
    apply (Hsorted 0 (S j)); [lia|done..].
Qed.

Lemma sort_unique pts1 pts2 :
  pts1 ≡ₚ pts2 → tieFree pts1 → sort pts1 = sort pts2.
Proof.
  intros Hperm Hfree.
  apply (StronglySorted_unique_strong pointerLe);
    [|apply sort_StronglySorted..|by rewrite !sort_perm].
  intros p q Hp Hq Hpq Hqp. apply Hfree; try done.
  - by rewrite <-(sort_perm pts1).
  - by rewrite Hperm, <-(sort_perm pts2).
Qed.

Lemma tieFreeKeys_tieFree results pts :
  allPointers rangeOrder1 results = Ok pts →
  tieFreeKeys (batchKeys results) → tieFree pts.
Proof.
  intros (_ & Hkeys & Hparsed)%(allPointers_Ok _ rangeOrder1_perm) Hfree.
  rewrite Forall_forall in Hparsed.
  intros p q Hp Hq Hpq Hqp.
  pose proof (Hparsed p Hp) as Hnewp. pose proof (Hparsed q Hq) as Hnewq.
  assert (jsonpointer.String_ p = jsonpointer.String_ q) as Heq.
  { apply (Hfree _ _ p q); try done.
    - apply keyOf_batchKeys, Hkeys. by apply list_elem_of_fmap_2.
    - apply keyOf_batchKeys, Hkeys. by apply list_elem_of_fmap_2. }
  rewrite Heq in Hnewp. congruence.
Qed.

(** X10: the pointers [allPointers] computes depend only on the keys of
    the batch: for two batches with the same keys, whatever the orders in
    which the two calls iterate the maps, when one call succeeds so does
    the other, with the same pointers up to their order, and when one fails
    so does the other.  So values, repeated records and records without a
    new key add or remove no column. *)
Theorem allPointers_keys_only (results1 results2 : list KeyValue) :
  (∀ key, keyOf results1 key ↔ keyOf results2 key) →
  (∀ pts1, allPointers rangeOrder1 results1 = Ok pts1 →
           ∃ pts2, allPointers rangeOrder2 results2 = Ok pts2 ∧
                   pts1 ≡ₚ pts2) ∧
  (∀ e1, allPointers rangeOrder1 results1 = Err e1 →
         ∃ e2, allPointers rangeOrder2 results2 = Err e2).
Proof.
  intros Hsame. split.
  - intros pts1 Hpts1.
    destruct (allPointers_succeeds _ rangeOrder2_perm results2)
      as [pts2 Hpts2].
    { intros k Hk%Hsame.
      destruct (allPointers_parsed _ rangeOrder1_perm _ _ _ Hpts1 Hk)
        as (p & _ & _ & Hp). eauto. }
    exists pts2. split; [done|]. by eapply allPointers_same_keys.
  - intros e1 (bad & Hbad%Hsame & Hnew)%(allPointers_Err _ rangeOrder1_perm).
    destruct (allPointers rangeOrder2 results2) as [pts2|e2] eqn:Hpts2;
      [|eauto].
    destruct (allPointers_parsed _ rangeOrder2_perm _ _ _ Hpts2 Hbad)
      as (p & _ & _ & Hp). congruence.
Qed.

(** X6: the transposed output is the row-major output with rows and
    columns exchanged, the header row becoming the first column: when no
    two different keys of the batch tie in the order of the pointers, cell
    [j] of row [i] of what [writeCSV] emits is cell [i] of line [j] of what
    [writeTransposedCSV] emits, and one is missing exactly when the other
    is, whatever the orders in which the two calls iterate the maps. *)
Theorem transposed_cell (w wt w' wt' : CSVWriter)
    (results : list KeyValue) (i j : nat) :
  HeaderStyle wt = HeaderStyle w →
  tieFreeKeys (batchKeys results) →
  writeCSV rangeOrder1 sort w results = (w', None) →
  writeTransposedCSV rangeOrder2 sort wt results = (wt', Return None) →
  emitted w w' !! i ≫= (.!! j) = emitted wt wt' !! j ≫= (.!! i).
Proof.
  intros Hstyle Hfree Hcsv Htr.
  destruct (writeCSV_None _ _ _ _ _ Hcsv) as (pts & Hpts & _).
  destruct (allPointers_orders_Ok _ _ Hpts) as (pts2 & Hpts2 & Hperm).
  pose proof (tieFreeKeys_tieFree _ _ Hpts Hfree) as Hfree1.
  assert (writeTransposedCSV rangeOrder1 sort wt results
          = (wt', Return None)) as Htr1.
  { rewrite <-Htr. unfold writeTransposedCSV.
    by rewrite Hpts, Hpts2, (sort_unique _ _ Hperm Hfree1). }
  by eapply (transposed_cell_same_order rangeOrder1 sort).
Qed.

(** X19: when the keys of the batch parse and no two different keys tie
    in the order of the pointers, what [WriteCSV] does is the same under
    every order in which the maps are iterated: the same rows reach the
    sink and the same value is returned. *)
Theorem WriteCSV_order_independent (w : CSVWriter)
    (results : list KeyValue) (pts : pointers) :
  allPointers rangeOrder1 results = Ok pts →
  tieFreeKeys (batchKeys results) →
  WriteCSV rangeOrder1 sort w results = WriteCSV rangeOrder2 sort w results.
Proof.
  intros Hpts1 Hfree.
  destruct (allPointers_orders_Ok _ _ Hpts1) as (pts2 & Hpts2 & Hperm).
  pose proof (tieFreeKeys_tieFree _ _ Hpts1 Hfree) as Hfree1.
  unfold WriteCSV, writeCSV, writeTransposedCSV.
  by rewrite Hpts1, Hpts2, (sort_unique _ _ Hperm Hfree1).
Qed.

Lemma keyOf_headerRecord_batchKeys csvHeader :
  batchKeys [headerRecord rangeOrder1 csvHeader] = csvHeader.
Proof.
  apply set_eq. intros k.
  by rewrite <-keyOf_batchKeys,
    (keyOf_headerRecord _ rangeOrder1_perm sort sort_perm sort_sorted).
Qed.

(** X20: the header [FormatHeader] computes under [JSONPointerStyle]
    names the columns of the rows [WriteCSVByHeader] emits for the same
    header specification: when no two different declared keys tie, each
    row emitted by a call that returned without error holds, under every
    label of the header and in its order, the cell of the record under
    that key.  The two calls may iterate the maps in different orders. *)
Theorem FormatHeader_names_columns (w w2 w2' : CSVWriter) (σ σ' : store)
    (results : list loc) (csvHeader : CSVHeader) (header : list string) :
  HeaderStyle w = JSONPointerStyle →
  tieFreeKeys csvHeader →
  FormatHeader rangeOrder1 sort w csvHeader = Ok header →
  WriteCSVByHeader rangeOrder2 sort w2 σ results csvHeader
  = (w2', σ', Return None) →
  emitted w2 w2' = (λ l, cell (deref σ l) <$> header) <$> results.
Proof.
  intros Hstyle Hfree. unfold FormatHeader, WriteCSVByHeader.
  rewrite <-headerRecord_orders.
  destruct (allPointers rangeOrder1 _) as [pts1|e1] eqn:Hpts1; [|done].
  destruct (allPointers_orders_Ok _ _ Hpts1) as (pts2 & -> & Hperm).
  rewrite <-keyOf_headerRecord_batchKeys in Hfree.
  pose proof (tieFreeKeys_tieFree _ _ Hpts1 Hfree) as Hfree1.
  rewrite <-(sort_unique _ _ Hperm Hfree1).
  rewrite getHeader_label, Hstyle.
  change (fmap (label JSONPointerStyle)) with Strings.
  intros [= <-].
  destruct (writeByHeaderLoop _ _ _ _ _ _) as [[w1 σ1] out1] eqn:Hloop.
  apply (writeByHeaderLoop_spec _ rangeOrder2_perm) in Hloop
    as (_ & n & Hrows & Hn).
  destruct out1 as [[err|]|]; try done.
  intros [= <- <- _]. apply emitted_app.
  rewrite Hrows, (Hn eq_refl). by rewrite firstn_all.
Qed.

(** X21: writing a batch by its own keys gives the table of [writeCSV]:
    when the header specification is the set of the keys of the batch, no
    two of which tie, the header of [FormatHeader] followed by the rows
    of a [WriteCSVByHeader] that returned without error are the rows of a
    [writeCSV] that returned without error, for the same header style,
    whatever the orders in which the maps are iterated. *)
Theorem WriteCSVByHeader_own_keys (w w' w2 w2' : CSVWriter) (σ σ' : store)
    (results : list loc) (header : list string) :
  let batch := deref σ <$> results in
  tieFreeKeys (batchKeys batch) →
  writeCSV rangeOrder1 sort w batch = (w', None) →
  FormatHeader rangeOrder2 sort w (batchKeys batch) = Ok header →
  WriteCSVByHeader rangeOrder2 sort w2 σ results (batchKeys batch)
  = (w2', σ', Return None) →
  emitted w w' = header :: emitted w2 w2'.
Proof.
  intros batch Hfree
    (pts & Hpts & ->)%writeCSV_None.
  pose proof (tieFreeKeys_tieFree _ _ Hpts Hfree) as Hfree1.
  unfold FormatHeader, WriteCSVByHeader.
  destruct (allPointers rangeOrder2 _) as [pts2|e2] eqn:Hpts2; [|done].
  assert (pts ≡ₚ pts2) as Hperm.
  { apply (allPointers_same_keys batch
             [headerRecord rangeOrder2 (batchKeys batch)]); try done.
    intros k.
    by rewrite
      (keyOf_headerRecord _ rangeOrder2_perm sort sort_perm sort_sorted),
      keyOf_batchKeys. }
  rewrite <-(sort_unique _ _ Hperm Hfree1).
  intros [= <-].
  destruct (writeByHeaderLoop _ _ _ _ _ _) as [[w1 σ1] out1] eqn:Hloop.
  apply (writeByHeaderLoop_spec _ rangeOrder2_perm) in Hloop
    as (_ & n & Hrows & Hn).
  destruct out1 as [[err|]|]; try done.
  intros [= <- <- _]. f_equal. symmetry. apply emitted_app.
  rewrite Hrows, (Hn eq_refl), firstn_all. f_equal.
  unfold batch. rewrite <-list_fmap_compose.
  apply list_fmap_ext. intros _ l _. simpl. by rewrite toRecord_cells.
Qed.

End IterationOrders.

(** ** The properties at the sample inputs *)

Lemma keyOf_intro (results : list KeyValue) (i : nat) result key :
  results !! i = Some result → is_Some (result !! key) → keyOf results key.
Proof. intros Hi Hk. exists result. eauto using list_elem_of_lookup_2. Qed.

Lemma sort_numeric_and_prefix_witness :
  let w' := (writeCSV elementsOrder mergeSort pointerWriter sampleBatch).1 in
  ∃ header rows,
    emitted pointerWriter w' = header :: rows ∧
    (∃ i j, i < j ∧ header !! i = Some "/a/2" ∧ header !! j = Some "/a/10") ∧
    (∃ i j, i < j ∧ header !! i = Some "/a" ∧ header !! j = Some "/a/b").
Proof.
  destruct (sort_numeric_and_prefix elementsOrder elementsOrder_perm
              mergeSort mergeSort_perm mergeSort_sorted pointerWriter
              (writeCSV elementsOrder mergeSort pointerWriter sampleBatch).1
              sampleBatch)
    as (pts & header & rows & _ & Hrows & _ & Hnum & Hprefix);
    [vm_compute; reflexivity|].
  exists header, rows. split; [exact Hrows|]. split.
  - destruct Hnum as (i & j & Hij & _ & _ & Hi & Hj);
      [eapply (keyOf_intro sampleBatch 0); [reflexivity|vm_compute; eauto]..|].
    exists i, j. split; [exact Hij|]. split; [exact Hi|exact Hj].
  - destruct Hprefix as (i & j & Hij & _ & _ & Hi & Hj);
      [eapply (keyOf_intro sampleBatch 1); [reflexivity|vm_compute; eauto]..|].
    exists i, j. split; [exact Hij|]. split; [exact Hi|exact Hj].
Defined.

Lemma allPointers_union_witness :
  let pts := [["a"; "10"]; ["a"; "2"]; ["a"; "b"]; ["a"]] in
  let w' := (writeCSV elementsOrder mergeSort pointerWriter sampleBatch).1 in
  allPointers elementsOrder sampleBatch = Ok pts ∧
  NoDup (Strings pts) ∧
  (∀ key, key ∈ Strings pts ↔ keyOf sampleBatch key) ∧
  ∃ header rows,
    emitted pointerWriter w' = header :: rows ∧
    NoDup header ∧ ∀ key, key ∈ header ↔ keyOf sampleBatch key.
Proof.
  assert (allPointers elementsOrder sampleBatch
          = Ok [["a"; "10"]; ["a"; "2"]; ["a"; "b"]; ["a"]]) as Hpts
    by (vm_compute; reflexivity).
  destruct (allPointers_union elementsOrder elementsOrder_perm
              mergeSort mergeSort_perm sampleBatch _ Hpts)
    as (Hnodup & Hkeys & Hheader).
  split; [exact Hpts|]. split; [exact Hnodup|]. split; [exact Hkeys|].
  destruct (Hheader pointerWriter
              (writeCSV elementsOrder mergeSort pointerWriter sampleBatch).1)
    as (header & rows & Hrows & _ & _ & Hlabels);
    [vm_compute; reflexivity|].
  exists header, rows. split; [exact Hrows|]. by apply Hlabels.
Defined.

Lemma allPointers_union_counterexample :
  let results : list KeyValue :=
    [ {[ "/a/b" := VNumber "1"; "/a.b" := VNumber "2" ]} ] in
  let w := mkCSVWriter reliableSink DotNotationStyle false in
  let run := writeCSV elementsOrder mergeSort w results in
  run.2 = None ∧
  emitted w run.1 = [["a.b"; "a.b"]; ["1"; "2"]] ∧
  keyOf results "/a/b" ∧
  ¬ ∃ header rows,
      emitted w run.1 = header :: rows ∧
      NoDup header ∧ ∀ key, key ∈ header ↔ keyOf results key.
Proof.
  intros results w run.
  assert (emitted w run.1 = [["a.b"; "a.b"]; ["1"; "2"]]) as Hrows
    by (vm_compute; reflexivity).
  split; [vm_compute; reflexivity|]. split; [exact Hrows|]. split.
  - eapply (keyOf_intro results 0); [reflexivity|vm_compute; eauto].
  - intros (header & rows & Hheader & Hnodup & _).
    rewrite Hrows in Hheader. injection Hheader as <- _.
    apply NoDup_cons in Hnodup as [Hin _]. apply Hin. by left.
Qed.

Lemma transpose_symmetry_witness :
  let w' := (writeCSV elementsOrder mergeSort pointerWriter sampleBatch).1 in
  let wt' := (writeTransposedCSV elementsOrder mergeSort transposingWriter
                sampleBatch).1 in
  emitted pointerWriter w'
  = [["/a"; "/a/2"; "/a/10"; "/a/b"]; [""; "x"; "7"; ""];
     ["true"; ""; ""; ""]] ∧
  emitted transposingWriter wt'
  = [["/a"; ""; "true"]; ["/a/2"; "x"; ""]; ["/a/10"; "7"; ""];
     ["/a/b"; ""; ""]] ∧
  readRows (emitted pointerWriter w')
  ≡ₚ readLines (emitted transposingWriter wt').
Proof.
  split; [vm_compute; reflexivity|]. split; [vm_compute; reflexivity|].
  apply (transpose_symmetry elementsOrder mergeSort
           pointerWriter transposingWriter _ _ sampleBatch);
    vm_compute; reflexivity.
Defined.

Lemma WriteCSVByHeader_columns_witness :
  let run := WriteCSVByHeader elementsOrder mergeSort pointerWriter
               sampleStore [0; 1] sampleHeader in
  run.2 = Return None ∧
  emitted pointerWriter run.1.1 = [["1"; ""; ""]; [""; "2"; ""]] ∧
  ∃ keys,
    keys ≡ₚ elements sampleHeader ∧
    keysSorted keys ∧
    emitted pointerWriter run.1.1
    = (λ l, cell (deref sampleStore l) <$> keys) <$> [0; 1].
Proof.
  split; [vm_compute; reflexivity|]. split; [vm_compute; reflexivity|].
  destruct (WriteCSVByHeader_columns elementsOrder elementsOrder_perm
              mergeSort mergeSort_perm mergeSort_sorted
              pointerWriter
              (WriteCSVByHeader elementsOrder mergeSort pointerWriter
                 sampleStore [0; 1] sampleHeader).1.1
              sampleStore
              (WriteCSVByHeader elementsOrder mergeSort pointerWriter
                 sampleStore [0; 1] sampleHeader).1.2
              [0; 1] sampleHeader (Return None))
    as [(bad & _ & _ & Hout & _)|(keys & n & Hperm & Hsorted & Hrows & Hn)].
  - vm_compute; reflexivity.
  - discriminate Hout.
  - exists keys. rewrite (Hn eq_refl) in Hrows. by simpl in Hrows.
Defined.

Lemma WriterHeader_x_y_witness :
  let w' := (WriterHeader elementsOrder mergeSort pointerWriter
               {[ "/x"; "/y" ]}).1 in
  FormatHeader elementsOrder mergeSort pointerWriter {[ "/x"; "/y" ]}
  = Ok ["/x"; "/y"] ∧
  emitted pointerWriter w' = [["/x"; "/y"]].
Proof.
  destruct (WriterHeader_x_y elementsOrder elementsOrder_perm
              mergeSort mergeSort_perm mergeSort_sorted
              pointerWriter eq_refl) as [Hformat Hwrite].
  split; [exact Hformat|].
  destruct (Hwrite (WriterHeader elementsOrder mergeSort pointerWriter
                      {[ "/x"; "/y" ]}).1 None) as [[Hrow _]|[_ [Herr _]]].
  - vm_compute; reflexivity.
  - exact Hrow.
  - by destruct Herr.
Defined.

Lemma WriteCSV_invalid_pointer_witness :
  jsonpointer.New "/b~2" = Err (InvalidPointer "/b~2") ∧
  ∃ bad,
    keyOf brokenBatch bad ∧
    jsonpointer.New bad = Err (InvalidPointer bad) ∧
    WriteCSV elementsOrder mergeSort pointerWriter brokenBatch
    = (pointerWriter, Return (Some (InvalidPointer bad))) ∧
    emitted pointerWriter pointerWriter = [].
Proof.
  split; [vm_compute; reflexivity|].
  apply (WriteCSV_invalid_pointer elementsOrder elementsOrder_perm mergeSort
           pointerWriter brokenBatch "/b~2" (InvalidPointer "/b~2")).
  - eapply (keyOf_intro brokenBatch 1); [reflexivity|vm_compute; eauto].
  - vm_compute; reflexivity.
Defined.

Lemma WriteCSVByHeader_frame_witness :
  let run := WriteCSVByHeader elementsOrder mergeSort pointerWriter
               sampleStore [0; 1] sampleHeader in
  ∃ result',
    run.1.2 !! 0 = Some result' ∧
    (∀ k v, ({[ "/a" := VNumber "1"; "/zz" := VString "extra" ]} : KeyValue)
              !! k = Some v → result' !! k = Some v) ∧
    (∀ k v, result' !! k = Some v →
            ({[ "/a" := VNumber "1"; "/zz" := VString "extra" ]} : KeyValue)
              !! k = None →
            k ∈ sampleHeader ∧ v = VString "").
Proof.
  apply (WriteCSVByHeader_frame elementsOrder elementsOrder_perm mergeSort
           pointerWriter
           (WriteCSVByHeader elementsOrder mergeSort pointerWriter
              sampleStore [0; 1] sampleHeader).1.1
           sampleStore _ [0; 1] sampleHeader
           (WriteCSVByHeader elementsOrder mergeSort pointerWriter
              sampleStore [0; 1] sampleHeader).2).
  - vm_compute; reflexivity.
  - vm_compute; reflexivity.
Defined.

(** ** The missing-field policy on a sample *)

Example writeCSV_missing_fields :
  let results : list KeyValue :=
    [ {[ "/a" := VString "1" ]}; {[ "/b" := VString "2" ]} ] in
  emitted pointerWriter
    (writeCSV elementsOrder mergeSort pointerWriter results).1
  = [["/a"; "/b"]; ["1"; ""]; [""; "2"]].
Proof. vm_compute. reflexivity. Qed.

Example WriteCSVByHeader_fills_store :
  (WriteCSVByHeader elementsOrder mergeSort pointerWriter
     sampleStore [0; 1] sampleHeader).1.2
  = {[ 0 := {[ "/a" := VNumber "1"; "/zz" := VString "extra";
               "/b" := VString ""; "/c" := VString "" ]};
       1 := {[ "/b" := VString "2"; "/a" := VString "";
               "/c" := VString "" ]} ]}.
Proof. vm_compute. reflexivity. Qed.

Example WriteCSVByHeader_nil_map_panics :
  (WriteCSVByHeader elementsOrder mergeSort pointerWriter
     sampleStore [0; 7] sampleHeader).2
  = Panic.
Proof. vm_compute. reflexivity. Qed.

(** ** The further properties at the sample inputs *)

Ltac enumerate H :=
  repeat match type of H with
         | _ ∈ _ :: _ => apply elem_of_cons in H as [->|H]
         | _ ∈ [] => by apply elem_of_nil in H
         end.

Ltac enumerate_set H :=
  apply elem_of_elements in H; vm_compute in H; enumerate H.

Lemma reverseOrder_perm X : reverseOrder X ≡ₚ elements X.
Proof. apply reverse_Permutation. Qed.

Ltac enumerate_keys H :=
  apply elem_of_elements in H;
  match type of H with
  | _ ∈ ?l => let l' := eval vm_compute in l in change l with l' in H
  end;
  enumerate H.

Ltac solve_tieFreeKeys :=
  intros k1 k2 p1 p2 H1 H2 Hp1 Hp2 Hl1 Hl2;
  enumerate_keys H1; enumerate_keys H2;
  try reflexivity;
  vm_compute in Hp1, Hp2;
  injection Hp1 as <-; injection Hp2 as <-;
  vm_compute in Hl1, Hl2; discriminate.

Lemma toTransposedRecord_cells_witness :
  length (toTransposedRecord sampleBatch "/a/2" "a.2") = 3 ∧
  toTransposedRecord sampleBatch "/a/2" "a.2" !! 0 = Some "a.2" ∧
  toTransposedRecord sampleBatch "/a/2" "a.2" !! 1 = Some "x" ∧
  toTransposedRecord sampleBatch "/a/2" "a.2" !! 2 = Some "".
Proof.
  destruct (toTransposedRecord_cells sampleBatch "/a/2" "a.2")
    as (Hlen & Hhead & Hcells).
  split; [exact Hlen|]. split; [exact Hhead|]. split.
  - exact (Hcells 0 _ eq_refl).
  - exact (Hcells 1 _ eq_refl).
Defined.

Lemma toRecord_present_witness :
  toRecord {[ "/a" := VBool true; "/a/b" := VNull ]} ["/x"; "/a"] !! 1
  = Some "true".
Proof.
  apply (toRecord_present {[ "/a" := VBool true; "/a/b" := VNull ]}
           ["/x"; "/a"] 1 "/a" (VBool true)); vm_compute; reflexivity.
Defined.

Lemma toRecord_agree_witness :
  toRecord {[ "/a" := VNumber "1"; "/zz" := VString "extra" ]} ["/a"; "/b"]
  = toRecord {[ "/a" := VNumber "1" ]} ["/a"; "/b"].
Proof.
  apply (toRecord_agree
           {[ "/a" := VNumber "1"; "/zz" := VString "extra" ]}
           {[ "/a" := VNumber "1" ]} ["/a"; "/b"]).
  intros key Hkey. enumerate Hkey; vm_compute; reflexivity.
Defined.

Lemma writeCSV_shape_witness :
  let w' := (writeCSV elementsOrder mergeSort pointerWriter sampleBatch).1 in
  size (batchKeys sampleBatch) = 4 ∧
  length (emitted pointerWriter w') = 3 ∧
  Forall (λ row, length row = size (batchKeys sampleBatch))
         (emitted pointerWriter w').
Proof.
  split; [vm_compute; reflexivity|].
  apply (writeCSV_shape elementsOrder elementsOrder_perm
           mergeSort mergeSort_perm pointerWriter _ sampleBatch).
  vm_compute; reflexivity.
Defined.

Lemma writeTransposedCSV_shape_witness :
  let run := writeTransposedCSV elementsOrder mergeSort transposingWriter
               sampleBatch in
  Return None ≠ Panic ∧
  length (emitted transposingWriter run.1) = size (batchKeys sampleBatch) ∧
  Forall (λ line, length line = 3) (emitted transposingWriter run.1).
Proof.
  destruct (writeTransposedCSV_shape elementsOrder elementsOrder_perm
              mergeSort mergeSort_perm transposingWriter
              (writeTransposedCSV elementsOrder mergeSort transposingWriter
                 sampleBatch).1
              sampleBatch (Return None)) as [Hpanic Hshape].
  - vm_compute; reflexivity.
  - split; [exact Hpanic|]. exact (Hshape eq_refl).
Defined.

Lemma transposed_cell_witness :
  let w' := (writeCSV elementsOrder mergeSort pointerWriter sampleBatch).1 in
  let wt' := (writeTransposedCSV reverseOrder mergeSort transposingWriter
                sampleBatch).1 in
  emitted pointerWriter w' !! 1 ≫= (.!! 2) = Some "7" ∧
  emitted pointerWriter w' !! 1 ≫= (.!! 2)
  = emitted transposingWriter wt' !! 2 ≫= (.!! 1).
Proof.
  split; [vm_compute; reflexivity|].
  apply (transposed_cell elementsOrder reverseOrder
           elementsOrder_perm reverseOrder_perm
           mergeSort mergeSort_perm mergeSort_sorted
           pointerWriter transposingWriter _ _ sampleBatch 1 2).
  - reflexivity.
  - solve_tieFreeKeys.
  - vm_compute; reflexivity.
  - vm_compute; reflexivity.
Defined.

Lemma writeCSV_prefix_witness :
  let pts := [["a"; "10"]; ["a"; "2"]; ["a"; "b"]; ["a"]] in
  let run := writeCSV elementsOrder mergeSort twoRowWriter sampleBatch in
  run.2 = Some SinkWriteFailure ∧
  emitted twoRowWriter run.1
  = [["/a"; "/a/2"; "/a/10"; "/a/b"]; [""; "x"; "7"; ""]] ∧
  ∃ n,
    emitted twoRowWriter run.1
    = take n (rowMajor twoRowWriter (mergeSort pts) sampleBatch) ∧
    ((n = 3 ∧ run.2 = FlushError run.1) ∨
     (∃ row e,
        rowMajor twoRowWriter (mergeSort pts) sampleBatch !! n = Some row ∧
        onWrite (Writer run.1) (written (Writer run.1)) row = Some e ∧
        run.2 = Some e)).
Proof.
  split; [vm_compute; reflexivity|]. split; [vm_compute; reflexivity|].
  apply (writeCSV_prefix elementsOrder mergeSort twoRowWriter
           (writeCSV elementsOrder mergeSort twoRowWriter sampleBatch).1
           sampleBatch [["a"; "10"]; ["a"; "2"]; ["a"; "b"]; ["a"]]
           (writeCSV elementsOrder mergeSort twoRowWriter sampleBatch).2);
    vm_compute; reflexivity.
Defined.

Lemma writeTransposedCSV_prefix_witness :
  let pts := [["a"; "10"]; ["a"; "2"]; ["a"; "b"]; ["a"]] in
  let run := writeTransposedCSV elementsOrder mergeSort
               twoRowTransposingWriter sampleBatch in
  run.2 = Return (Some SinkWriteFailure) ∧
  emitted twoRowTransposingWriter run.1
  = [["/a"; ""; "true"]; ["/a/2"; "x"; ""]] ∧
  ∃ n,
    emitted twoRowTransposingWriter run.1
    = take n (transposedLines twoRowTransposingWriter (mergeSort pts)
                sampleBatch) ∧
    ((n = 4 ∧ run.2 = Return (FlushError run.1)) ∨
     (∃ line e,
        transposedLines twoRowTransposingWriter (mergeSort pts) sampleBatch
          !! n = Some line ∧
        onWrite (Writer run.1) (written (Writer run.1)) line = Some e ∧
        run.2 = Return (Some e))).
Proof.
  split; [vm_compute; reflexivity|]. split; [vm_compute; reflexivity|].
  apply (writeTransposedCSV_prefix elementsOrder
           mergeSort mergeSort_perm twoRowTransposingWriter
           (writeTransposedCSV elementsOrder mergeSort
              twoRowTransposingWriter sampleBatch).1
           sampleBatch [["a"; "10"]; ["a"; "2"]; ["a"; "b"]; ["a"]]
           (writeTransposedCSV elementsOrder mergeSort
              twoRowTransposingWriter sampleBatch).2);
    vm_compute; reflexivity.
Defined.

Lemma allPointers_first_occurrence_witness :
  allPointers reverseOrder sampleBatch
  = Ok [["a"; "2"]; ["a"; "10"]; ["a"]; ["a"; "b"]] ∧
  ∃ i j, i < j ∧
    Strings [["a"; "2"]; ["a"; "10"]; ["a"]; ["a"; "b"]] !! i = Some "/a/10" ∧
    Strings [["a"; "2"]; ["a"; "10"]; ["a"]; ["a"; "b"]] !! j = Some "/a".
Proof.
  split; [vm_compute; reflexivity|].
  apply (allPointers_first_occurrence reverseOrder reverseOrder_perm
           sampleBatch [["a"; "2"]; ["a"; "10"]; ["a"]; ["a"; "b"]] 1).
  - vm_compute; reflexivity.
  - eapply (keyOf_intro _ 0); [reflexivity|vm_compute; eauto].
  - intros (result & Hin & Hkey). unfold sampleBatch in Hin.
    simpl in Hin. enumerate Hin.
    vm_compute in Hkey. by destruct Hkey as [? [=]].
  - eapply (keyOf_intro _ 1); [reflexivity|vm_compute; eauto].
Defined.

Lemma allPointers_keys_only_witness :
  ∃ pts2,
    allPointers reverseOrder (sampleBatch ++ [ {[ "/a/2" := VNull ]} ])
    = Ok pts2 ∧
    [["a"; "10"]; ["a"; "2"]; ["a"; "b"]; ["a"]] ≡ₚ pts2.
Proof.
  assert (∀ key, keyOf sampleBatch key
                 ↔ keyOf (sampleBatch ++ [ {[ "/a/2" := VNull ]} ]) key)
    as Hsame.
  { intros key. split.
    - intros (result & Hin & Hkey). exists result.
      split; [apply elem_of_app; by left|done].
    - intros (result & [Hin|Hin]%elem_of_app & Hkey).
      + by exists result.
      + enumerate Hin. apply lookup_singleton_is_Some in Hkey as <-.
        eapply (keyOf_intro sampleBatch 0);
          [reflexivity|vm_compute; eauto]. }
  apply (proj1 (allPointers_keys_only elementsOrder reverseOrder
                  elementsOrder_perm reverseOrder_perm
                  sampleBatch (sampleBatch ++ [ {[ "/a/2" := VNull ]} ])
                  Hsame)).
  vm_compute; reflexivity.
Defined.

Lemma write_no_keys_witness :
  let results : list KeyValue := [∅; ∅] in
  emitted pointerWriter
    (writeCSV elementsOrder mergeSort pointerWriter results).1
  = [[]; []; []] ∧
  writeTransposedCSV elementsOrder mergeSort transposingWriter results
  = (transposingWriter, Return None).
Proof.
  destruct (write_no_keys elementsOrder elementsOrder_perm
              mergeSort mergeSort_perm pointerWriter [∅; ∅])
    as [Hrows _].
  { intros key (result & Hin & Hkey). enumerate Hin;
      rewrite lookup_empty in Hkey; by destruct Hkey. }
  destruct (write_no_keys elementsOrder elementsOrder_perm
              mergeSort mergeSort_perm transposingWriter [∅; ∅])
    as [_ Hlines].
  { intros key (result & Hin & Hkey). enumerate Hin;
      rewrite lookup_empty in Hkey; by destruct Hkey. }
  split; [|exact Hlines].
  apply Hrows. vm_compute; reflexivity.
Defined.

Lemma FormatHeader_shape_witness :
  FormatHeader elementsOrder mergeSort pointerWriter sampleHeader
  = Ok ["/a"; "/b"; "/c"] ∧
  length ["/a"; "/b"; "/c"] = size sampleHeader ∧
  ["/a"; "/b"; "/c"] ≡ₚ elements sampleHeader ∧
  keysSorted ["/a"; "/b"; "/c"].
Proof.
  assert (FormatHeader elementsOrder mergeSort pointerWriter sampleHeader
          = Ok ["/a"; "/b"; "/c"]) as Hformat by (vm_compute; reflexivity).
  destruct (FormatHeader_shape elementsOrder elementsOrder_perm
              mergeSort mergeSort_perm mergeSort_sorted
              pointerWriter sampleHeader _ Hformat) as [Hlen Hkeys].
  split; [exact Hformat|]. split; [exact Hlen|]. exact (Hkeys eq_refl).
Defined.

Lemma FormatHeader_invalid_witness :
  FormatHeader elementsOrder mergeSort pointerWriter brokenHeader
  = Err (InvalidPointer "b") ∧
  (∃ bad, bad ∈ brokenHeader ∧
          jsonpointer.New bad = Err (InvalidPointer "b") ∧
          InvalidPointer "b" = InvalidPointer bad) ∧
  WriterHeader elementsOrder mergeSort pointerWriter brokenHeader
  = (pointerWriter, Some (InvalidPointer "b")).
Proof.
  assert (FormatHeader elementsOrder mergeSort pointerWriter brokenHeader
          = Err (InvalidPointer "b")) as Hformat by (vm_compute; reflexivity).
  split; [exact Hformat|].
  exact (proj2 (FormatHeader_invalid elementsOrder elementsOrder_perm
                  mergeSort mergeSort_perm mergeSort_sorted
                  pointerWriter brokenHeader) _ Hformat).
Defined.

Lemma WriteCSVByHeader_panic_witness :
  ∃ l, l ∈ [0; 7] ∧ sampleStore !! l = None ∧ ∃ h, h ∈ sampleHeader.
Proof.
  apply (WriteCSVByHeader_panic elementsOrder elementsOrder_perm mergeSort
           pointerWriter
           (WriteCSVByHeader elementsOrder mergeSort pointerWriter
              sampleStore [0; 7] sampleHeader).1.1
           sampleStore
           (WriteCSVByHeader elementsOrder mergeSort pointerWriter
              sampleStore [0; 7] sampleHeader).1.2
           [0; 7] sampleHeader).
  vm_compute; reflexivity.
Defined.

Lemma WriteCSVByHeader_complete_witness :
  let run := WriteCSVByHeader elementsOrder mergeSort pointerWriter
               sampleStore [0; 1] sampleHeader in
  sampleStore !! 1 = Some {[ "/b" := VString "2" ]} ∧
  is_Some (deref run.1.2 1 !! "/c").
Proof.
  split; [vm_compute; reflexivity|].
  apply (WriteCSVByHeader_complete elementsOrder elementsOrder_perm mergeSort
           pointerWriter
           (WriteCSVByHeader elementsOrder mergeSort pointerWriter
              sampleStore [0; 1] sampleHeader).1.1
           sampleStore _ [0; 1] sampleHeader).
  - vm_compute; reflexivity.
  - set_solver.
  - unfold sampleHeader. set_solver.
Defined.

Lemma WriteCSVByHeader_other_witness :
  let run := WriteCSVByHeader elementsOrder mergeSort pointerWriter
               sampleStore [0] sampleHeader in
  run.1.2 !! 1 = sampleStore !! 1 ∧
  run.1.2 !! 0
  = Some {[ "/a" := VNumber "1"; "/zz" := VString "extra";
            "/b" := VString ""; "/c" := VString "" ]}.
Proof.
  split; [|vm_compute; reflexivity].
  apply (WriteCSVByHeader_other elementsOrder mergeSort pointerWriter
           (WriteCSVByHeader elementsOrder mergeSort pointerWriter
              sampleStore [0] sampleHeader).1.1
           sampleStore _ [0] sampleHeader
           (WriteCSVByHeader elementsOrder mergeSort pointerWriter
              sampleStore [0] sampleHeader).2).
  - vm_compute; reflexivity.
  - set_solver.
Defined.

Lemma WriteCSVByHeader_unchanged_witness :
  let run := WriteCSVByHeader elementsOrder mergeSort pointerWriter
               completeStore [0; 1] sampleHeader in
  emitted pointerWriter run.1.1 = [["1"; ""; "false"]; [""; "2"; ""]] ∧
  run.1.2 = completeStore.
Proof.
  split; [vm_compute; reflexivity|].
  apply (WriteCSVByHeader_unchanged elementsOrder elementsOrder_perm mergeSort
           pointerWriter
           (WriteCSVByHeader elementsOrder mergeSort pointerWriter
              completeStore [0; 1] sampleHeader).1.1
           completeStore _ [0; 1] sampleHeader
           (WriteCSVByHeader elementsOrder mergeSort pointerWriter
              completeStore [0; 1] sampleHeader).2).
  - intros l h Hl Hh. enumerate Hl; enumerate_keys Hh; vm_compute; eauto.
  - vm_compute; reflexivity.
Defined.

Lemma WriteCSVByHeader_twice_witness :
  let first := WriteCSVByHeader elementsOrder mergeSort pointerWriter
                 sampleStore [0; 1] sampleHeader in
  let second := WriteCSVByHeader elementsOrder mergeSort twoRowWriter
                  first.1.2 [0; 1] sampleHeader in
  first.1.2 !! 1
  = Some {[ "/b" := VString "2"; "/a" := VString ""; "/c" := VString "" ]} ∧
  second.1.2 = first.1.2.
Proof.
  split; [vm_compute; reflexivity|].
  apply (WriteCSVByHeader_twice elementsOrder elementsOrder_perm mergeSort
           pointerWriter
           (WriteCSVByHeader elementsOrder mergeSort pointerWriter
              sampleStore [0; 1] sampleHeader).1.1
           twoRowWriter
           (WriteCSVByHeader elementsOrder mergeSort twoRowWriter
              (WriteCSVByHeader elementsOrder mergeSort pointerWriter
                 sampleStore [0; 1] sampleHeader).1.2
              [0; 1] sampleHeader).1.1
           sampleStore _ _ [0; 1] sampleHeader
           (WriteCSVByHeader elementsOrder mergeSort twoRowWriter
              (WriteCSVByHeader elementsOrder mergeSort pointerWriter
                 sampleStore [0; 1] sampleHeader).1.2
              [0; 1] sampleHeader).2);
    vm_compute; reflexivity.
Defined.

Lemma WriteCSV_order_independent_witness :
  allPointers elementsOrder sampleBatch
  = Ok [["a"; "10"]; ["a"; "2"]; ["a"; "b"]; ["a"]] ∧
  allPointers reverseOrder sampleBatch
  = Ok [["a"; "2"]; ["a"; "10"]; ["a"]; ["a"; "b"]] ∧
  WriteCSV elementsOrder mergeSort pointerWriter sampleBatch
  = WriteCSV reverseOrder mergeSort pointerWriter sampleBatch.
Proof.
  split; [vm_compute; reflexivity|]. split; [vm_compute; reflexivity|].
  apply (WriteCSV_order_independent elementsOrder reverseOrder
           elementsOrder_perm reverseOrder_perm
           mergeSort mergeSort_perm mergeSort_sorted
           pointerWriter sampleBatch
           [["a"; "10"]; ["a"; "2"]; ["a"; "b"]; ["a"]]).
  - vm_compute; reflexivity.
  - solve_tieFreeKeys.
Defined.

Lemma FormatHeader_names_columns_witness :
  let run := WriteCSVByHeader reverseOrder mergeSort pointerWriter
               sampleStore [0; 1] sampleHeader in
  FormatHeader elementsOrder mergeSort pointerWriter sampleHeader
  = Ok ["/a"; "/b"; "/c"] ∧
  emitted pointerWriter run.1.1
  = (λ l, cell (deref sampleStore l) <$> ["/a"; "/b"; "/c"]) <$> [0; 1].
Proof.
  split; [vm_compute; reflexivity|].
  apply (FormatHeader_names_columns elementsOrder reverseOrder
           elementsOrder_perm reverseOrder_perm
           mergeSort mergeSort_perm mergeSort_sorted
           pointerWriter pointerWriter _ sampleStore
           (WriteCSVByHeader reverseOrder mergeSort pointerWriter
              sampleStore [0; 1] sampleHeader).1.2
           [0; 1] sampleHeader ["/a"; "/b"; "/c"]).
  - reflexivity.
  - solve_tieFreeKeys.
  - vm_compute; reflexivity.
  - vm_compute; reflexivity.
Defined.

Lemma WriteCSVByHeader_own_keys_witness :
  let batch := deref sampleStore <$> [0; 1] in
  let w' := (writeCSV elementsOrder mergeSort pointerWriter batch).1 in
  let run := WriteCSVByHeader reverseOrder mergeSort pointerWriter
               sampleStore [0; 1] (batchKeys batch) in
  emitted pointerWriter w'
  = [["/a"; "/b"; "/zz"]; ["1"; ""; "extra"]; [""; "2"; ""]] ∧
  emitted pointerWriter w'
  = ["/a"; "/b"; "/zz"] :: emitted pointerWriter run.1.1.
Proof.
  split; [vm_compute; reflexivity|].
  apply (WriteCSVByHeader_own_keys elementsOrder reverseOrder
           elementsOrder_perm reverseOrder_perm
           mergeSort mergeSort_perm mergeSort_sorted
           pointerWriter _ pointerWriter _ sampleStore
           (WriteCSVByHeader reverseOrder mergeSort pointerWriter
              sampleStore [0; 1]
              (batchKeys (deref sampleStore <$> [0; 1]))).1.2
           [0; 1] ["/a"; "/b"; "/zz"]).
  - solve_tieFreeKeys.
  - vm_compute; reflexivity.
  - vm_compute; reflexivity.
  - vm_compute; reflexivity.
Defined.
